(** * BLPgas::Send: sender-side tag matching over a pending-transfer table

    A shallow embedding of [Src/C_BaseLib/BLPgas.cpp].  The file holds one
    function, [BLPgas::Send], and one piece of state, the file-local
    multimap [pgas_send_info_map].  The embedding keeps the container, the
    in-place mutation through the reference [send_info], the assertions and
    the order of the effectful statements.

    [Send] is a function of the process state: the table, the [int]
    objects the counters point to, and the trace of what the calls did.  It
    either returns or stops the process, at an assertion or in undefined
    behaviour.  The assertions are those of a build without [NDEBUG]. *)

From Stdlib Require Import ZArith NArith Bool.
From stdpp Require Import base option list gmap.

Local Open Scope Z_scope.

Module BLPgas.

(** ** Data *)

(** [upcxx::rank_t] is an unsigned 32-bit integer; only its equality is used. *)
Definition rank_t := N.

(** Raw addresses; [0] is [NULL].  [upcxx::event *] and [int *] are raw
    addresses too. *)
Definition addr := N.

(** [upcxx::global_ptr<void>]: a raw address together with the rank that
    owns it.  The source uses two operations of it: [where()] (here
    [where_], since [where] is reserved) and the comparison with [NULL],
    which looks at the raw address. *)
Record global_ptr := { raw_ptr : addr; where_ : rank_t }.

Definition is_null (p : global_ptr) : bool := (raw_ptr p =? 0)%N.

(** [BLPgas::SendInfo].  The struct is declared in [BLPgas.H]; its members
    are the seven that [Send] reads and writes, and the initialiser of line
    123 gives them the seven arguments of the call, in the order of the
    parameters.  [SeqNum] is an [int] and [nbytes] a [size_t]; both are only
    compared for equality. *)
Record SendInfo := {
  src_ptr : global_ptr;
  dst_ptr : global_ptr;
  nbytes : N;
  SeqNum : Z;
  signal_event : addr;
  done_event : addr;
  send_counter : addr
}.

(** [pgas_send_info_map_t]: a multimap from rank to [SendInfo].  [Send]
    reaches it through [equal_range], [insert] and [erase] only, so the
    model is the list of its pairs in which the entries of one key keep the
    order of their insertion ([std::multimap] inserts at the upper bound of
    the key's range).  An iterator is a position in that list. *)
Abbreviation pgas_send_info_map_t := (list (rank_t * SendInfo)).

(** What a run of [Send] does to the world outside its locals, in program
    order. *)
Inductive Effect :=
| EvInsert (key : rank_t) (send_info : SendInfo)
| EvCopy (src dst : global_ptr) (n : N) (signal done : addr)
| EvIncr (counter : addr)
| EvErase (key : rank_t) (send_info : SendInfo).

(** The process state: the table, the [int] objects that counters point
    to, and the effects so far. *)
Record State := {
  pgas_send_info_map : pgas_send_info_map_t;
  ints : gmap N Z;
  trace : list Effect
}.

(** The ways a call ends other than by returning: the three assertions, by
    the line that carries them, and undefined behaviour of the increment
    through [send_counter] (line 114). *)
Inductive Failure :=
| AssertNbytes    (* line 79:  assert(nbytes == send_info.nbytes)  *)
| AssertDstNull   (* line 97:  assert(send_info.dst_ptr == NULL)   *)
| AssertCheck     (* line 106: send_info.check()                   *)
| Undefined.      (* null or dangling dereference, signed overflow *)

Inductive Outcome (A : Type) :=
| Ok (a : A) (s : State)
| Abort (f : Failure) (s : State).
Arguments Ok {A} a s.
Arguments Abort {A} f s.

(** ** A state and failure monad *)

Definition M (A : Type) := State -> Outcome A.

Definition ret {A} (a : A) : M A := fun s => Ok a s.

Definition bind {A B} (c : M A) (k : A -> M B) : M B :=
  fun s => match c s with
           | Ok a s' => k a s'
           | Abort f s' => Abort f s'
           end.

Notation "'let*' x := c 'in' k" := (bind c (fun x => k))
  (at level 10, x name, c at level 100, k at level 200).
Notation "c >> k" := (bind c (fun _ => k))
  (at level 90, right associativity).

(** The state an outcome stopped in. *)
Definition final {A} (o : Outcome A) : State :=
  match o with Ok _ s => s | Abort _ s => s end.

(** ** Primitive actions *)

(** [assert(b)]: a false [b] ends the process where it stands. *)
Definition assert_ (b : bool) (f : Failure) : M unit :=
  fun s => if b then Ok tt s else Abort f s.

Definition get_map : M pgas_send_info_map_t :=
  fun s => Ok (pgas_send_info_map s) s.

(** Reading [it->second]. *)
Definition deref (it : nat) : M SendInfo :=
  fun s => match pgas_send_info_map s !! it with
           | Some (_, send_info) => Ok send_info s
           | None => Abort Undefined s
           end.

(** Writing through the reference [send_info = it->second]: the entry is
    changed where it sits in the table, its key stays. *)
Definition assign (it : nat) (d : SendInfo) : M unit :=
  fun s => match pgas_send_info_map s !! it with
           | Some (k, _) =>
               Ok tt {| pgas_send_info_map := <[it := (k, d)]> (pgas_send_info_map s);
                        ints := ints s; trace := trace s |}
           | None => Abort Undefined s
           end.

(** The external one-sided copy: the model records the call. *)
Definition async_copy_and_signal (src dst : global_ptr) (n : N)
    (signal done : addr) : M unit :=
  fun s => Ok tt {| pgas_send_info_map := pgas_send_info_map s;
                    ints := ints s;
                    trace := trace s ++ [EvCopy src dst n signal done] |}.

Definition INT_MAX : Z := 2147483647.

(** Line 114: the post-increment of the [int] that [p] points to.  A null
    or dangling [p] and an increment of [INT_MAX] are undefined. *)
Definition incr (p : addr) : M unit :=
  fun s => if (p =? 0)%N then Abort Undefined s
           else match ints s !! p with
                | Some v =>
                    if v <? INT_MAX then
                      Ok tt {| pgas_send_info_map := pgas_send_info_map s;
                               ints := <[p := v + 1]> (ints s);
                               trace := trace s ++ [EvIncr p] |}
                    else Abort Undefined s
                | None => Abort Undefined s
                end.

(** [pgas_send_info_map.erase(it)]. *)
Definition erase (it : nat) : M unit :=
  fun s => match pgas_send_info_map s !! it with
           | Some (k, d) =>
               Ok tt {| pgas_send_info_map := delete it (pgas_send_info_map s);
                        ints := ints s;
                        trace := trace s ++ [EvErase k d] |}
           | None => Abort Undefined s
           end.

(** [pgas_send_info_map.insert(pair(key, send_info))]. *)
Definition insert_pair (key : rank_t) (d : SendInfo) : M unit :=
  fun s => Ok tt {| pgas_send_info_map := pgas_send_info_map s ++ [(key, d)];
                    ints := ints s;
                    trace := trace s ++ [EvInsert key d] |}.

(** ** The loop of lines 72-119

    The loop walks [equal_range(key)] and leaves at the first entry whose
    [SeqNum] is the one announced.  [find_it] gives that entry's position,
    or [None] when the loop runs to its end. *)
Fixpoint find_it (key : rank_t) (seq : Z) (m : pgas_send_info_map_t) : option nat :=
  match m with
  | [] => None
  | (k, send_info) :: rest =>
      if (k =? key)%N && (seq =? SeqNum send_info)
      then Some O
      else S <$> find_it key seq rest
  end.

(** Lines 88-90: [src_ptr], [done_event] and [send_counter] take the
    arguments of the call; the other members stay. *)
Definition with_source (send_info : SendInfo) (src : global_ptr)
    (done counter : addr) : SendInfo :=
  {| src_ptr := src;
     dst_ptr := dst_ptr send_info;
     nbytes := nbytes send_info;
     SeqNum := SeqNum send_info;
     signal_event := signal_event send_info;
     done_event := done;
     send_counter := counter |}.

(** Lines 98-99: [dst_ptr] and [signal_event] take the arguments of the
    call; the other members stay. *)
Definition with_destination (send_info : SendInfo) (dst : global_ptr)
    (signal : addr) : SendInfo :=
  {| src_ptr := src_ptr send_info;
     dst_ptr := dst;
     nbytes := nbytes send_info;
     SeqNum := SeqNum send_info;
     signal_event := signal;
     done_event := done_event send_info;
     send_counter := send_counter send_info |}.

Section Send.

(** [SendInfo::check()] is declared in [BLPgas.H]; [Send] takes it as a
    parameter: [check d = true] when every assertion of [check] holds. *)
Variable check : SendInfo -> bool.

(** Lines 79-106: the size assertion, the completion of the stored half in
    place, and [check]. *)
Definition merge (it : nat) (src dst : global_ptr) (n : N)
    (signal done counter : addr) : M unit :=
  let* send_info := deref it in
  assert_ (n =? nbytes send_info)%N AssertNbytes >>
  (if is_null (src_ptr send_info) then
     assign it (with_source send_info src done counter)
   else
     assert_ (is_null (dst_ptr send_info)) AssertDstNull >>
     assign it (with_destination send_info dst signal)) >>
  let* send_info := deref it in
  assert_ (check send_info) AssertCheck.

(** Lines 108-116: the copy, the counter, the erase. *)
Definition fire (it : nat) : M unit :=
  let* send_info := deref it in
  async_copy_and_signal (src_ptr send_info) (dst_ptr send_info)
    (nbytes send_info) (signal_event send_info) (done_event send_info) >>
  incr (send_counter send_info) >>
  erase it.

(** [BLPgas::Send], lines 50-125.  The parameters [nbytes], [SeqNum],
    [signal_event], [done_event] and [send_counter] of the source are [n],
    [seq], [signal], [done] and [counter] here; their own names are those
    of the members of [SendInfo]. *)
Definition Send (src dst : global_ptr) (n : N) (seq : Z)
    (signal done counter : addr) : M unit :=
  let* m := get_map in
  match find_it (where_ dst) seq m with
  | Some it =>
      merge it src dst n signal done counter >>
      fire it
  | None =>
      insert_pair (where_ dst)
        {| src_ptr := src; dst_ptr := dst; nbytes := n; SeqNum := seq;
           signal_event := signal; done_event := done;
           send_counter := counter |}
  end.

(** A call, as the record of its seven arguments. *)
Definition announce (a : SendInfo) : M unit :=
  Send (src_ptr a) (dst_ptr a) (nbytes a) (SeqNum a)
       (signal_event a) (done_event a) (send_counter a).

(** A sequence of calls; a failed call ends the process. *)
Fixpoint run (calls : list SendInfo) : M unit :=
  match calls with
  | [] => ret tt
  | a :: rest => announce a >> run rest
  end.

End Send.

End BLPgas.

Import BLPgas.

(** * The vocabulary of the statements *)

(** Modelled from the spec: [SendInfo::check()], called on line 106, is
    declared in [BLPgas.H], which is not among the sources.  On a match the
    spec asks for the assertion that the destination address is non-null
    when the call has brought the source, that the source address is
    non-null when the call has brought the destination, and makes a call
    whose role does not fit the missing field fatal.  After the merge all
    three say that both addresses of the descriptor are non-null, and
    [check_spec] is that. *)
Definition check_spec (d : SendInfo) : bool :=
  negb (is_null (src_ptr d)) && negb (is_null (dst_ptr d)).

(** The two kinds of announcement.  A source half brings the send buffer
    and names the receiver by the rank of a null [dst]; a destination half
    brings the receive buffer and a null [src]. *)
Definition is_source_half (a : SendInfo) : bool :=
  negb (is_null (src_ptr a)) && is_null (dst_ptr a).

Definition is_destination_half (a : SendInfo) : bool :=
  is_null (src_ptr a) && negb (is_null (dst_ptr a)).

(** The descriptor of the transfer that a source half and a destination
    half make together. *)
Definition transfer (sa da : SendInfo) : SendInfo :=
  {| src_ptr := src_ptr sa;
     dst_ptr := dst_ptr da;
     nbytes := nbytes sa;
     SeqNum := SeqNum sa;
     signal_event := signal_event da;
     done_event := done_event sa;
     send_counter := send_counter sa |}.

(** The call of the copy primitive for a descriptor (lines 108-112). *)
Definition copy_of (d : SendInfo) : Effect :=
  EvCopy (src_ptr d) (dst_ptr d) (nbytes d) (signal_event d) (done_event d).

Definition is_copy (e : Effect) : bool :=
  match e with EvCopy _ _ _ _ _ => true | _ => false end.

Definition is_insert (e : Effect) : bool :=
  match e with EvInsert _ _ => true | _ => false end.

Definition is_erase (e : Effect) : bool :=
  match e with EvErase _ _ => true | _ => false end.

(** The copies issued in a trace, and what a trace holds besides the
    storing of halves: copies, increments and erasures. *)
Definition copies (tr : list Effect) : list Effect := List.filter is_copy tr.

Definition fired (tr : list Effect) : list Effect :=
  List.filter (fun e => negb (is_insert e)) tr.

(** How an outcome ended. *)
Definition failure {A} (o : Outcome A) : option Failure :=
  match o with Ok _ _ => None | Abort f _ => Some f end.

(** The key of a table entry as the loop sees it: the rank it is stored
    under and the sequence number it carries. *)
Definition key_of (e : rank_t * SendInfo) : rank_t * Z := (e.1, SeqNum e.2).

Definition unique_keys (m : pgas_send_info_map_t) : Prop :=
  NoDup (key_of <$> m).

(** A call whose key has no entry in [m]. *)
Definition absent (m : pgas_send_info_map_t) (a : SendInfo) : Prop :=
  find_it (where_ (dst_ptr a)) (SeqNum a) m = None.

(** In a trace, every erasure comes before every copy. *)
Definition erase_precedes_copy (tr : list Effect) : Prop :=
  forall i j, is_copy <$> tr !! i = Some true ->
              is_erase <$> tr !! j = Some true -> (j < i)%nat.

(** What the stored half becomes on a match. *)
Definition merged (e : SendInfo) (src dst : global_ptr)
    (sg dn c : addr) : SendInfo :=
  if is_null (src_ptr e) then with_source e src dn c
  else with_destination e dst sg.

(** The counter store after one increment through [p]. *)
Definition bump (p : addr) (i : gmap N Z) : gmap N Z :=
  match i !! p with
  | Some v => <[p := v + 1]> i
  | None => i
  end.

(** The increment through [p] is defined. *)
Definition can_incr (p : addr) (i : gmap N Z) : bool :=
  negb (p =? 0)%N &&
  match i !! p with Some v => v <? INT_MAX | None => false end.

(** The state in which the second call has completed the stored half:
    the table holds the whole descriptor, nothing is issued yet. *)
Definition completed (sa da first : SendInfo) (s : State) : State :=
  {| pgas_send_info_map := [(where_ (dst_ptr sa), transfer sa da)];
     ints := ints s;
     trace := trace s ++ [EvInsert (where_ (dst_ptr sa)) first] |}.

(** A source half and a destination half of one transfer: the same
    receiver rank, the same sequence number, the same size. *)
Definition complementary (sa da : SendInfo) : Prop :=
  is_source_half sa = true /\ is_destination_half da = true /\
  where_ (dst_ptr sa) = where_ (dst_ptr da) /\
  SeqNum sa = SeqNum da /\ nbytes sa = nbytes da.

(** ** A concrete session

    Rank 0 sends to rank 3.  Receive buffers live at rank 3, send buffers at
    rank 0; the counter is the [int] at address 70. *)

Definition half (src_raw src_rank dst_raw dst_rank : N) (n : N) (seq : Z)
    (signal done counter : N) : SendInfo :=
  {| src_ptr := {| raw_ptr := src_raw; where_ := src_rank |};
     dst_ptr := {| raw_ptr := dst_raw; where_ := dst_rank |};
     nbytes := n; SeqNum := seq;
     signal_event := signal; done_event := done; send_counter := counter |}.

Definition dst7 : SendInfo := half 0 0 4096 3 1024 7 50 0 0.
Definition src7 : SendInfo := half 8192 0 0 3 1024 7 0 60 70.
Definition dst8 : SendInfo := half 0 0 20480 3 512 8 51 0 0.
Definition src8 : SendInfo := half 24576 0 0 3 512 8 0 61 70.
Definition dst9 : SendInfo := half 0 0 32768 3 16 9 52 0 0.

(** A second source half for tag 7, of the same size and of another. *)
Definition src7_again : SendInfo := half 12288 0 0 3 1024 7 0 62 70.
Definition src7_128 : SendInfo := half 12288 0 0 3 128 7 0 62 70.
Definition dst7_64 : SendInfo := half 0 0 4096 3 64 7 50 0 0.

(** A destination half for tag 7 at another rank. *)
Definition dst7_rank4 : SendInfo := half 0 0 4096 4 1024 7 50 0 0.

Definition fresh : State :=
  {| pgas_send_info_map := []; ints := {[ 70%N := 0 ]}; trace := [] |}.

(** One half of transfer 9 is waiting. *)
Definition waiting9 : State :=
  {| pgas_send_info_map := [(3%N, dst9)]; ints := {[ 70%N := 5 ]};
     trace := [EvInsert 3%N dst9] |}.

(** ** Vocabulary of the further properties *)

(** The test of line 76 on a table entry, within [equal_range(key)]. *)
Definition has_key (key : rank_t) (seq : Z) (e : rank_t * SendInfo) : bool :=
  (e.1 =? key)%N && (seq =? SeqNum e.2).

(** The entries of a table that a call for [(key, seq)] can match, and the
    ones it cannot, each in table order. *)
Definition own (key : rank_t) (seq : Z) (m : pgas_send_info_map_t) :
    pgas_send_info_map_t :=
  List.filter (has_key key seq) m.

Definition others (key : rank_t) (seq : Z) (m : pgas_send_info_map_t) :
    pgas_send_info_map_t :=
  List.filter (fun e => negb (has_key key seq e)) m.

(** What a call added to the trace. *)
Definition new_effects (s : State) (o : Outcome unit) : list Effect :=
  drop (length (trace s)) (trace (final o)).

Definition is_incr (e : Effect) : bool :=
  match e with EvIncr _ => true | _ => false end.

(** A sequence of calls, [n] times over. *)
Fixpoint rounds (n : nat) (calls : list SendInfo) : list SendInfo :=
  match n with
  | O => []
  | S n' => calls ++ rounds n' calls
  end.

(** A descriptor with both addresses, and the two halves of a transfer that
    carries the sequence number 7 to rank 4. *)
Definition both7 : SendInfo := half 8192 0 4096 3 1024 7 50 60 70.
Definition dst7_other : SendInfo := half 0 0 4096 3 1024 7 53 0 0.
Definition src7_rank4 : SendInfo := half 16384 0 0 4 1024 7 0 63 70.

(** Two halves of transfer 7 are waiting between halves of transfers 8 and
    9. *)
Definition crowded : State :=
  {| pgas_send_info_map := [(3%N, dst9); (3%N, dst7); (3%N, dst8)];
     ints := {[ 70%N := 5 ]};
     trace := [] |}.

(** A source half for transfer 7 that brings no counter. *)
Definition src7_no_counter : SendInfo := half 8192 0 0 3 1024 7 0 60 0.

(** A source half for transfer 7 whose send buffer is at rank 5, while the
    destination half [dst7] carries a null [src] of rank 0. *)
Definition src7_far : SendInfo := half 8192 5 0 3 1024 7 0 60 70.

(** Entries in front of the ones a call works on.

    A call whose key has no entry in a front part [m] of the table works
    on the rest as if [m] were not there. *)

Definition set_map (m : pgas_send_info_map_t) (s : State) : State :=
  {| pgas_send_info_map := m; ints := ints s; trace := trace s |}.

Definition behind (m : pgas_send_info_map_t) (s : State) : State :=
  set_map (m ++ pgas_send_info_map s) s.

Definition behind_out {A} (m : pgas_send_info_map_t) (o : Outcome A) : Outcome A :=
  match o with
  | Ok a s => Ok a (behind m s)
  | Abort f s => Abort f (behind m s)
  end.

(** * Lemmas *)

(** ** Facts about the loop *)

Lemma find_it_Some key seq m it :
  find_it key seq m = Some it ->
  exists e, m !! it = Some (key, e) /\ SeqNum e = seq.
Proof.
  revert it. induction m as [|[k e] m IH]; intros it; simpl; [discriminate|].
  destruct ((k =? key)%N && (seq =? SeqNum e)) eqn:E.
  - intros [= <-]. apply andb_true_iff in E as [Ek Es].
    apply N.eqb_eq in Ek. apply Z.eqb_eq in Es. subst. eauto.
  - destruct (find_it key seq m) as [j|]; simpl; [|discriminate].
    intros [= <-]. simpl. eauto.
Qed.

Lemma find_it_lt key seq m it :
  find_it key seq m = Some it -> (it < length m)%nat.
Proof.
  intros H. apply find_it_Some in H as (e & H & _).
  eapply lookup_lt_Some; eauto.
Qed.

Lemma find_it_None key seq m :
  find_it key seq m = None <->
  (forall i e, m !! i = Some (key, e) -> SeqNum e <> seq).
Proof.
  induction m as [|[k e] m IH]; simpl.
  - split; [intros _ i e H; discriminate | reflexivity].
  - destruct ((k =? key)%N && (seq =? SeqNum e)) eqn:E.
    + apply andb_true_iff in E as [Ek Es].
      apply N.eqb_eq in Ek. apply Z.eqb_eq in Es. subst.
      split; [discriminate|]. intros H. exfalso. apply (H O e); reflexivity.
    + split.
      * intros H [|i] e'; simpl.
        -- intros [= -> ->] Hs. subst.
           rewrite N.eqb_refl, Z.eqb_refl in E. discriminate.
        -- destruct (find_it key seq m); [discriminate|].
           apply IH. reflexivity.
      * intros H. destruct (find_it key seq m) eqn:F; [|reflexivity].
        exfalso. apply find_it_Some in F as (e' & F & Hs).
        apply (H (S n) e'); assumption.
Qed.

Lemma find_it_app key seq m l :
  find_it key seq (m ++ l) =
  match find_it key seq m with
  | Some it => Some it
  | None => (fun j => (length m + j)%nat) <$> find_it key seq l
  end.
Proof.
  induction m as [|[k e] m IH]; simpl.
  - destruct (find_it key seq l); reflexivity.
  - destruct ((k =? key)%N && (seq =? SeqNum e)); [reflexivity|].
    rewrite IH. destruct (find_it key seq m); simpl; [reflexivity|].
    destruct (find_it key seq l); reflexivity.
Qed.

(** ** Entries in front of the ones a call works on *)

Lemma behind_nil s : behind (pgas_send_info_map s) (set_map [] s) = s.
Proof. destruct s. unfold behind, set_map. simpl. by rewrite app_nil_r. Qed.

Lemma bind_behind {A B} m (c c' : M A) (k k' : A -> M B) s :
  c (behind m s) = behind_out m (c' s) ->
  (forall a s', k a (behind m s') = behind_out m (k' a s')) ->
  bind c k (behind m s) = behind_out m (bind c' k' s).
Proof.
  intros Hc Hk. unfold bind. rewrite Hc.
  destruct (c' s); simpl; [apply Hk | reflexivity].
Qed.

Lemma assert_behind m b f s :
  assert_ b f (behind m s) = behind_out m (assert_ b f s).
Proof. unfold assert_. by destruct b. Qed.

Lemma deref_behind m j s :
  deref (length m + j) (behind m s) = behind_out m (deref j s).
Proof.
  unfold deref, behind, set_map. simpl. rewrite lookup_app_r by lia.
  replace (length m + j - length m)%nat with j by lia.
  destruct (pgas_send_info_map s !! j) as [[k e]|]; reflexivity.
Qed.

Lemma assign_behind m j d s :
  assign (length m + j) d (behind m s) = behind_out m (assign j d s).
Proof.
  unfold assign, behind, set_map. simpl. rewrite lookup_app_r by lia.
  replace (length m + j - length m)%nat with j by lia.
  destruct (pgas_send_info_map s !! j) as [[k e]|]; [|reflexivity].
  simpl. by rewrite insert_app_r.
Qed.

Lemma copy_behind m src dst n sg dn s :
  async_copy_and_signal src dst n sg dn (behind m s) =
  behind_out m (async_copy_and_signal src dst n sg dn s).
Proof. reflexivity. Qed.

Lemma incr_behind m p s :
  incr p (behind m s) = behind_out m (incr p s).
Proof.
  unfold incr, behind, set_map. simpl. destruct (p =? 0)%N; [reflexivity|].
  destruct (ints s !! p) as [v|]; [|reflexivity].
  destruct (v <? INT_MAX); reflexivity.
Qed.

Lemma erase_behind m j s :
  erase (length m + j) (behind m s) = behind_out m (erase j s).
Proof.
  unfold erase, behind, set_map. simpl. rewrite lookup_app_r by lia.
  replace (length m + j - length m)%nat with j by lia.
  destruct (pgas_send_info_map s !! j) as [[k e]|] eqn:E; [|reflexivity].
  simpl. f_equal. f_equal.
  apply lookup_lt_Some in E.
  rewrite !delete_take_drop, take_app_ge, drop_app_ge by lia.
  replace (length m + j - length m)%nat with j by lia.
  replace (S (length m + j) - length m)%nat with (S j) by lia.
  unfold behind, set_map. simpl. by rewrite <- app_assoc.
Qed.

Lemma insert_pair_behind m k d s :
  insert_pair k d (behind m s) = behind_out m (insert_pair k d s).
Proof.
  unfold insert_pair, behind, set_map. simpl. by rewrite <- app_assoc.
Qed.

Lemma merge_behind check m j src dst n sg dn c s :
  merge check (length m + j) src dst n sg dn c (behind m s) =
  behind_out m (merge check j src dst n sg dn c s).
Proof.
  unfold merge.
  apply bind_behind; [apply deref_behind|]. intros e s1.
  apply bind_behind; [apply assert_behind|]. intros _ s2.
  apply bind_behind.
  - destruct (is_null (src_ptr e)); [apply assign_behind|].
    apply bind_behind; [apply assert_behind|]. intros _ s3.
    apply assign_behind.
  - intros _ s3. apply bind_behind; [apply deref_behind|]. intros e' s4.
    apply assert_behind.
Qed.

Lemma fire_behind m j s :
  fire (length m + j) (behind m s) = behind_out m (fire j s).
Proof.
  unfold fire.
  apply bind_behind; [apply deref_behind|]. intros e s1.
  apply bind_behind; [apply copy_behind|]. intros _ s2.
  apply bind_behind; [apply incr_behind|]. intros _ s3.
  apply erase_behind.
Qed.

Lemma Send_behind check m src dst n seq sg dn c s :
  find_it (where_ dst) seq m = None ->
  Send check src dst n seq sg dn c (behind m s) =
  behind_out m (Send check src dst n seq sg dn c s).
Proof.
  intros Hm. unfold Send, bind at 1 3, get_map. simpl.
  rewrite find_it_app, Hm.
  destruct (find_it (where_ dst) seq (pgas_send_info_map s)) as [j|]; simpl.
  - apply bind_behind; [apply merge_behind|]. intros _ s1. apply fire_behind.
  - apply insert_pair_behind.
Qed.

Lemma run_behind check m calls s :
  Forall (absent m) calls ->
  run check calls (behind m s) = behind_out m (run check calls s).
Proof.
  intros H. revert s. induction H as [|a calls Ha _ IH]; intros s; simpl.
  - reflexivity.
  - apply bind_behind; [by apply Send_behind | intros _ s'; apply IH].
Qed.


(** ** One call, step by step *)

Lemma Send_no_match check src dst n seq sg dn c s :
  find_it (where_ dst) seq (pgas_send_info_map s) = None ->
  Send check src dst n seq sg dn c s =
  insert_pair (where_ dst)
    {| src_ptr := src; dst_ptr := dst; nbytes := n; SeqNum := seq;
       signal_event := sg; done_event := dn; send_counter := c |} s.
Proof. intros H. unfold Send, bind, get_map. by rewrite H. Qed.

Lemma Send_match check src dst n seq sg dn c s it :
  find_it (where_ dst) seq (pgas_send_info_map s) = Some it ->
  Send check src dst n seq sg dn c s =
  (merge check it src dst n sg dn c >> fire it) s.
Proof. intros H. unfold Send, bind at 1, get_map. by rewrite H. Qed.

Lemma merge_spec check it src dst n sg dn c s k e :
  pgas_send_info_map s !! it = Some (k, e) ->
  merge check it src dst n sg dn c s =
  if negb (n =? nbytes e)%N then Abort AssertNbytes s
  else if negb (is_null (src_ptr e)) && negb (is_null (dst_ptr e))
  then Abort AssertDstNull s
  else
    let s' := set_map (<[it := (k, merged e src dst sg dn c)]>
                         (pgas_send_info_map s)) s in
    if check (merged e src dst sg dn c) then Ok tt s'
    else Abort AssertCheck s'.
Proof.
  intros H. pose proof (lookup_lt_Some _ _ _ H) as Hlt.
  unfold merge, merged, bind, deref, assert_, assign. rewrite H.
  destruct (n =? nbytes e)%N; simpl; [|reflexivity].
  destruct (is_null (src_ptr e)); simpl.
  - rewrite H. simpl. rewrite list_lookup_insert_eq by assumption.
    unfold set_map. by destruct (check _).
  - destruct (is_null (dst_ptr e)); simpl; [|reflexivity].
    rewrite H. simpl. rewrite list_lookup_insert_eq by assumption.
    unfold set_map. by destruct (check _).
Qed.

Lemma fire_spec it s k e :
  pgas_send_info_map s !! it = Some (k, e) ->
  fire it s =
  if (send_counter e =? 0)%N
  then Abort Undefined
         {| pgas_send_info_map := pgas_send_info_map s; ints := ints s;
            trace := trace s ++ [copy_of e] |}
  else match ints s !! send_counter e with
       | Some v =>
           if v <? INT_MAX
           then Ok tt {| pgas_send_info_map := delete it (pgas_send_info_map s);
                         ints := <[send_counter e := v + 1]> (ints s);
                         trace := trace s ++
                                  [copy_of e; EvIncr (send_counter e);
                                   EvErase k e] |}
           else Abort Undefined
                  {| pgas_send_info_map := pgas_send_info_map s;
                     ints := ints s; trace := trace s ++ [copy_of e] |}
       | None => Abort Undefined
                   {| pgas_send_info_map := pgas_send_info_map s;
                      ints := ints s; trace := trace s ++ [copy_of e] |}
       end.
Proof.
  intros H.
  unfold fire, bind, deref, async_copy_and_signal, incr, erase, copy_of.
  rewrite H. simpl.
  destruct (send_counter e =? 0)%N; [reflexivity|].
  destruct (ints s !! send_counter e) as [v|]; [|reflexivity].
  destruct (v <? INT_MAX); [|reflexivity].
  simpl. rewrite H. by rewrite <- !app_assoc.
Qed.

Lemma delete_insert_same {A} (l : list A) i x :
  delete i (<[i := x]> l) = delete i l.
Proof.
  rewrite !delete_take_drop.
  rewrite take_insert_ge, drop_insert_lt by lia. reflexivity.
Qed.

Lemma bind_ret_tt (c : M unit) s : (c >> ret tt) s = c s.
Proof. unfold bind, ret. by destruct (c s) as [[] ?|]. Qed.

Lemma run_two check a b s :
  run check [a; b] s = (announce check a >> announce check b) s.
Proof.
  simpl. unfold bind at 1 3. destruct (announce check a s); [|reflexivity].
  apply bind_ret_tt.
Qed.

(** ** A source half and a destination half, in the two orders *)

Section Pair.

Variable check : SendInfo -> bool.
Variables sa da : SendInfo.
Hypothesis Hsa : is_source_half sa = true.
Hypothesis Hda : is_destination_half da = true.
Hypothesis Hrank : where_ (dst_ptr sa) = where_ (dst_ptr da).
Hypothesis Hseq : SeqNum sa = SeqNum da.
Hypothesis Hn : nbytes sa = nbytes da.

Lemma run_dst_src s :
  run check [da; sa] (set_map [] s) =
  if check (transfer sa da) then fire O (completed sa da da s)
  else Abort AssertCheck (completed sa da da s).
Proof.
  apply andb_true_iff in Hsa as [Hs1 Hs2], Hda as [Hd1 Hd2].
  apply negb_true_iff in Hs1, Hd2.
  rewrite run_two. unfold announce. unfold bind at 1.
  rewrite Send_no_match by reflexivity. unfold insert_pair. simpl.
  rewrite (Send_match _ _ _ _ _ _ _ _ _ O); cycle 1.
  { simpl. by rewrite Hrank, Hseq, N.eqb_refl, Z.eqb_refl. }
  unfold bind.
  erewrite merge_spec by reflexivity. simpl.
  rewrite Hn, N.eqb_refl, Hd1. simpl.
  unfold merged. simpl. rewrite Hd1.
  replace (with_source _ _ _ _) with (transfer sa da); cycle 1.
  { unfold with_source, transfer. simpl. by rewrite Hn, Hseq. }
  unfold completed, set_map. simpl. rewrite <- Hrank.
  destruct sa, da; simpl in *.
  by destruct (check _).
Qed.

Lemma run_src_dst s :
  run check [sa; da] (set_map [] s) =
  if check (transfer sa da) then fire O (completed sa da sa s)
  else Abort AssertCheck (completed sa da sa s).
Proof.
  apply andb_true_iff in Hsa as [Hs1 Hs2], Hda as [Hd1 Hd2].
  apply negb_true_iff in Hs1, Hd2.
  rewrite run_two. unfold announce. unfold bind at 1.
  rewrite Send_no_match by reflexivity. unfold insert_pair. simpl.
  rewrite (Send_match _ _ _ _ _ _ _ _ _ O); cycle 1.
  { simpl. by rewrite Hrank, Hseq, N.eqb_refl, Z.eqb_refl. }
  unfold bind.
  erewrite merge_spec by reflexivity. simpl.
  rewrite <- Hn, N.eqb_refl, Hs1, Hs2. simpl.
  unfold merged. simpl. rewrite Hs1.
  replace (with_destination _ _ _) with (transfer sa da); cycle 1.
  { unfold with_destination, transfer. simpl. reflexivity. }
  unfold completed, set_map. simpl.
  destruct sa, da; simpl in *.
  by destruct (check _).
Qed.

End Pair.

Lemma failure_behind_out {A} m (o : Outcome A) :
  failure (behind_out m o) = failure o.
Proof. by destruct o. Qed.

Lemma final_behind_out {A} m (o : Outcome A) :
  final (behind_out m o) = behind m (final o).
Proof. by destruct o. Qed.

Lemma absent_same_key m a b :
  where_ (dst_ptr a) = where_ (dst_ptr b) -> SeqNum a = SeqNum b ->
  absent m a -> absent m b.
Proof. unfold absent. by intros <- <-. Qed.

(** The outcome of the two calls over any table that has no entry for the
    key, in terms of the completed descriptor alone. *)
Lemma run_pair check sa da s first second :
  is_source_half sa = true -> is_destination_half da = true ->
  where_ (dst_ptr sa) = where_ (dst_ptr da) -> SeqNum sa = SeqNum da ->
  nbytes sa = nbytes da ->
  absent (pgas_send_info_map s) sa ->
  (first = da /\ second = sa) \/ (first = sa /\ second = da) ->
  run check [first; second] s =
  behind_out (pgas_send_info_map s)
    (if check (transfer sa da)
     then fire O (completed sa da first (set_map [] s))
     else Abort AssertCheck (completed sa da first (set_map [] s))).
Proof.
  intros Hsa Hda Hrank Hseq Hn Habs Hord.
  assert (Hboth : Forall (absent (pgas_send_info_map s)) [first; second]).
  { pose proof (absent_same_key _ _ _ Hrank Hseq Habs).
    destruct Hord as [[-> ->]|[-> ->]]; repeat constructor; assumption. }
  rewrite <- (behind_nil s) at 1.
  rewrite run_behind by assumption. f_equal.
  destruct Hord as [[-> ->]|[-> ->]].
  - by rewrite run_dst_src.
  - by rewrite run_src_dst.
Qed.

Lemma pair_fires check sa da s v first second :
  is_source_half sa = true -> is_destination_half da = true ->
  where_ (dst_ptr sa) = where_ (dst_ptr da) -> SeqNum sa = SeqNum da ->
  nbytes sa = nbytes da ->
  absent (pgas_send_info_map s) sa ->
  check (transfer sa da) = true ->
  send_counter sa <> 0%N ->
  ints s !! send_counter sa = Some v -> v < INT_MAX ->
  (first = da /\ second = sa) \/ (first = sa /\ second = da) ->
  run check [first; second] s =
  Ok tt {| pgas_send_info_map := pgas_send_info_map s;
           ints := <[send_counter sa := v + 1]> (ints s);
           trace := trace s ++
                    [EvInsert (where_ (dst_ptr sa)) first;
                     copy_of (transfer sa da);
                     EvIncr (send_counter sa);
                     EvErase (where_ (dst_ptr sa)) (transfer sa da)] |}.
Proof.
  intros Hsa Hda Hrank Hseq Hn Habs Hck Hc Hv Hlt Hord.
  rewrite (run_pair check sa da) by assumption. rewrite Hck.
  erewrite fire_spec by reflexivity. simpl.
  apply N.eqb_neq in Hc. rewrite Hc, Hv.
  apply Z.ltb_lt in Hlt. rewrite Hlt. simpl.
  unfold behind, set_map. simpl. rewrite app_nil_r, <- app_assoc.
  reflexivity.
Qed.

(** ** One announcement: the two ways it returns *)

Lemma announce_stores check a s :
  absent (pgas_send_info_map s) a ->
  announce check a s =
  Ok tt {| pgas_send_info_map :=
             pgas_send_info_map s ++ [(where_ (dst_ptr a), a)];
           ints := ints s;
           trace := trace s ++ [EvInsert (where_ (dst_ptr a)) a] |}.
Proof.
  intros H. unfold announce. rewrite Send_no_match by exact H.
  unfold insert_pair. by destruct a.
Qed.

Lemma announce_fires check a s it k e d :
  find_it (where_ (dst_ptr a)) (SeqNum a) (pgas_send_info_map s) = Some it ->
  pgas_send_info_map s !! it = Some (k, e) ->
  nbytes a = nbytes e ->
  is_null (src_ptr e) && negb (is_null (dst_ptr e))
  || negb (is_null (src_ptr e)) && is_null (dst_ptr e) = true ->
  merged e (src_ptr a) (dst_ptr a) (signal_event a) (done_event a)
         (send_counter a) = d ->
  check d = true ->
  can_incr (send_counter d) (ints s) = true ->
  announce check a s =
  Ok tt {| pgas_send_info_map := delete it (pgas_send_info_map s);
           ints := bump (send_counter d) (ints s);
           trace := trace s ++
                    [copy_of d; EvIncr (send_counter d); EvErase k d] |}.
Proof.
  intros Hit He Hn Hhalf Hd Hck Hinc.
  pose proof (lookup_lt_Some _ _ _ He) as Hlen.
  apply andb_true_iff in Hinc as [Hc Hv]. apply negb_true_iff in Hc.
  destruct (ints s !! send_counter d) as [v|] eqn:Ev; [|discriminate].
  unfold announce. rewrite (Send_match _ _ _ _ _ _ _ _ _ it) by exact Hit.
  unfold bind. erewrite merge_spec by exact He.
  rewrite Hn, N.eqb_refl. simpl.
  replace (negb (is_null (src_ptr e)) && negb (is_null (dst_ptr e)))
    with false by (by destruct (is_null (src_ptr e)), (is_null (dst_ptr e))).
  simpl. rewrite Hd, Hck.
  erewrite fire_spec; cycle 1.
  { simpl. by apply list_lookup_insert_eq. }
  simpl. rewrite Hc, Ev, Hv. unfold bump. rewrite Ev.
  by rewrite delete_insert_same.
Qed.

Lemma merged_destination_first sa da :
  is_source_half sa = true -> is_destination_half da = true ->
  SeqNum sa = SeqNum da -> nbytes sa = nbytes da ->
  merged da (src_ptr sa) (dst_ptr sa) (signal_event sa) (done_event sa)
         (send_counter sa) = transfer sa da.
Proof.
  intros _ Hda Hseq Hn. apply andb_true_iff in Hda as [Hd _].
  unfold merged, with_source, transfer. by rewrite Hd, Hseq, Hn.
Qed.

Lemma merged_source_first sa da :
  is_source_half sa = true -> is_destination_half da = true ->
  merged sa (src_ptr da) (dst_ptr da) (signal_event da) (done_event da)
         (send_counter da) = transfer sa da.
Proof.
  intros Hsa _. apply andb_true_iff in Hsa as [Hs _].
  apply negb_true_iff in Hs.
  unfold merged, with_destination, transfer. by rewrite Hs.
Qed.

Lemma bump_comm p q (i : gmap N Z) : bump p (bump q i) = bump q (bump p i).
Proof.
  unfold bump. destruct (decide (p = q)) as [->|Hne]; [reflexivity|].
  destruct (i !! q) as [vq|] eqn:Eq, (i !! p) as [vp|] eqn:Ep;
    rewrite ?lookup_insert_ne, ?Eq, ?Ep by congruence;
    try reflexivity.
  by apply insert_insert_ne.
Qed.

Lemma can_incr_bump_other p q i :
  p <> q -> can_incr q (bump p i) = can_incr q i.
Proof.
  intros H. unfold can_incr, bump.
  destruct (i !! p); [|reflexivity]. by rewrite lookup_insert_ne.
Qed.

Lemma can_incr_swap p q i :
  can_incr p i = true -> can_incr q (bump p i) = true ->
  can_incr q i = true /\ can_incr p (bump q i) = true.
Proof.
  intros Hp Hq. destruct (decide (p = q)) as [->|Hne]; [by split|].
  rewrite can_incr_bump_other in Hq by assumption.
  split; [assumption|]. by rewrite can_incr_bump_other.
Qed.

Lemma run_step check a rest s s' r :
  announce check a s = Ok tt s' ->
  run check rest s' = r ->
  run check (a :: rest) s = r.
Proof. intros Ha Hr. simpl. unfold bind. by rewrite Ha. Qed.

Lemma copies_app tr tr' : copies (tr ++ tr') = copies tr ++ copies tr'.
Proof. apply List.filter_app. Qed.

Section TwoTags.

Variable check : SendInfo -> bool.
Variables s1 d1 s2 d2 : SendInfo.
Hypothesis Hs1 : is_source_half s1 = true.
Hypothesis Hd1 : is_destination_half d1 = true.
Hypothesis Hs2 : is_source_half s2 = true.
Hypothesis Hd2 : is_destination_half d2 = true.
Hypothesis Hr1 : where_ (dst_ptr s1) = where_ (dst_ptr d1).
Hypothesis Hr2 : where_ (dst_ptr s2) = where_ (dst_ptr d2).
Hypothesis Hpeer : where_ (dst_ptr s1) = where_ (dst_ptr s2).
Hypothesis Ht1 : SeqNum s1 = SeqNum d1.
Hypothesis Ht2 : SeqNum s2 = SeqNum d2.
Hypothesis Htags : SeqNum s1 <> SeqNum s2.
Hypothesis Hn1 : nbytes s1 = nbytes d1.
Hypothesis Hn2 : nbytes s2 = nbytes d2.
Hypothesis Hck1 : check (transfer s1 d1) = true.
Hypothesis Hck2 : check (transfer s2 d2) = true.

Local Ltac keys E12 E21 :=
  cbn [pgas_send_info_map find_it];
  rewrite <- ?Hr1, <- ?Hr2, <- ?Hpeer, <- ?Ht1, <- ?Ht2,
    ?N.eqb_refl, ?Z.eqb_refl, ?E12, ?E21;
  simpl; reflexivity.

Local Ltac halves :=
  first [ unfold is_destination_half in Hd1, Hd2;
          first [rewrite Hd1 | rewrite Hd2]; reflexivity
        | unfold is_source_half in Hs1, Hs2;
          first [rewrite Hs1 | rewrite Hs2]; apply orb_true_r ].

Local Ltac call E12 E21 :=
  eapply run_step;
  [ first
      [ apply announce_stores; unfold absent; keys E12 E21
      | eapply announce_fires;
        [ keys E12 E21
        | reflexivity
        | first [assumption | symmetry; assumption]
        | halves
        | first [ by apply merged_destination_first
                | by apply merged_source_first ]
        | assumption
        | cbn [send_counter transfer]; assumption ] ]
  | cbn [pgas_send_info_map ints trace app delete list_delete
         send_counter transfer] ].

Lemma two_tags_base i tr calls :
  can_incr (send_counter s1) i = true ->
  can_incr (send_counter s2) (bump (send_counter s1) i) = true ->
  calls ≡ₚ [d1; s1; d2; s2] ->
  exists tr',
    run check calls {| pgas_send_info_map := []; ints := i; trace := tr |} =
    Ok tt {| pgas_send_info_map := [];
             ints := bump (send_counter s2) (bump (send_counter s1) i);
             trace := tr' |} /\
    (copies tr' = copies tr ++ [copy_of (transfer s1 d1); copy_of (transfer s2 d2)] \/
     copies tr' = copies tr ++ [copy_of (transfer s2 d2); copy_of (transfer s1 d1)]).
Proof.
  intros Hi1 Hi21 Hperm.
  destruct (can_incr_swap _ _ _ Hi1 Hi21) as [Hi2 Hi12].
  assert (E12 : (SeqNum s1 =? SeqNum s2) = false) by by apply Z.eqb_neq.
  assert (E21 : (SeqNum s2 =? SeqNum s1) = false) by (apply Z.eqb_neq; congruence).
  symmetry in Hperm. apply permutations_Permutation in Hperm.
  cbv [permutations interleave fmap list_fmap mbind list_bind app] in Hperm.
  repeat (apply elem_of_cons in Hperm as [->|Hperm]);
    [..|by apply elem_of_nil in Hperm].
  all: eexists; split;
    [ do 4 call E12 E21; cbn [run ret];
      rewrite ?(bump_comm (send_counter s1) (send_counter s2)); reflexivity
    | rewrite !copies_app; simpl; rewrite ?app_nil_r, <- ?app_assoc; simpl;
      auto ].
Qed.

End TwoTags.

(** ** The table after a call, in every outcome *)

(** The shapes the table can have when a call that found the entry at [it]
    stops: untouched, the entry completed in place, the entry erased. *)
Lemma Send_match_map check src dst n seq sg dn c s it k e :
  find_it (where_ dst) seq (pgas_send_info_map s) = Some it ->
  pgas_send_info_map s !! it = Some (k, e) ->
  let o := Send check src dst n seq sg dn c s in
  let m := pgas_send_info_map s in
  match o with
  | Ok _ s' => pgas_send_info_map s' = delete it m
  | Abort _ s' =>
      pgas_send_info_map s' = m \/
      pgas_send_info_map s' = <[it := (k, merged e src dst sg dn c)]> m
  end.
Proof.
  intros Hit He. pose proof (lookup_lt_Some _ _ _ He) as Hlen. simpl.
  rewrite (Send_match _ _ _ _ _ _ _ _ _ it) by exact Hit.
  unfold bind. erewrite merge_spec by exact He.
  destruct (negb (n =? nbytes e)%N); [by left|].
  destruct (negb (is_null (src_ptr e)) && negb (is_null (dst_ptr e)));
    [by left|].
  simpl. destruct (check _); [|by right].
  erewrite fire_spec; cycle 1.
  { simpl. by apply list_lookup_insert_eq. }
  simpl. destruct (send_counter _ =? 0)%N; [by right|].
  destruct (ints s !! _) as [v|]; [|by right].
  destruct (v <? INT_MAX); [|by right].
  simpl. apply delete_insert_same.
Qed.

Lemma merged_SeqNum e src dst sg dn c :
  SeqNum (merged e src dst sg dn c) = SeqNum e.
Proof. unfold merged. by destruct (is_null (src_ptr e)). Qed.

Lemma unique_keys_completed m it k e d :
  m !! it = Some (k, e) -> SeqNum d = SeqNum e ->
  unique_keys m -> unique_keys (<[it := (k, d)]> m).
Proof.
  intros He Hd. unfold unique_keys. rewrite list_fmap_insert.
  rewrite list_insert_id; [done|].
  rewrite list_lookup_fmap, He. simpl. unfold key_of. simpl. by rewrite Hd.
Qed.

Lemma unique_keys_erased m it :
  unique_keys m -> unique_keys (delete it m).
Proof.
  unfold unique_keys. intros H. rewrite list_fmap_delete.
  eapply sublist_NoDup; [exact H | apply sublist_delete].
Qed.

Lemma unique_keys_stored m k d :
  find_it k (SeqNum d) m = None ->
  unique_keys m -> unique_keys (m ++ [(k, d)]).
Proof.
  intros Hnone H. unfold unique_keys. rewrite fmap_app.
  apply NoDup_app. split; [exact H|]. split; [|apply NoDup_singleton].
  intros x Hx Hx'. simpl in Hx'. apply list_elem_of_singleton in Hx'. subst x.
  apply list_elem_of_fmap in Hx as ([k' e] & Hk & Hin).
  unfold key_of in Hk. simpl in Hk. injection Hk as <- Hs.
  apply list_elem_of_lookup in Hin as [i Hi].
  rewrite find_it_None in Hnone. by apply (Hnone i e).
Qed.

Lemma Send_unique_keys check src dst n seq sg dn c s :
  unique_keys (pgas_send_info_map s) ->
  unique_keys (pgas_send_info_map (final (Send check src dst n seq sg dn c s))).
Proof.
  intros H.
  destruct (find_it (where_ dst) seq (pgas_send_info_map s)) as [it|] eqn:F.
  - destruct (find_it_Some _ _ _ _ F) as (e & He & _).
    pose proof (Send_match_map check src dst n seq sg dn c s it _ e F He) as Hm.
    simpl in Hm.
    destruct (Send check src dst n seq sg dn c s) as [[] s'|f s']; simpl.
    + rewrite Hm. by apply unique_keys_erased.
    + destruct Hm as [-> | ->]; [assumption|].
      eapply unique_keys_completed; eauto using merged_SeqNum.
  - rewrite Send_no_match by exact F. simpl.
    by apply unique_keys_stored.
Qed.

Lemma run_unique_keys check calls s :
  unique_keys (pgas_send_info_map s) ->
  unique_keys (pgas_send_info_map (final (run check calls s))).
Proof.
  revert s. induction calls as [|a calls IH]; intros s H; simpl; [assumption|].
  unfold bind. pose proof (Send_unique_keys check (src_ptr a) (dst_ptr a)
    (nbytes a) (SeqNum a) (signal_event a) (done_event a) (send_counter a) s H)
    as Hstep.
  fold (announce check a) in Hstep.
  destruct (announce check a s) as [[] s'|f s']; simpl in *.
  - by apply IH.
  - assumption.
Qed.

Lemma find_it_erased key seq m it :
  unique_keys m -> find_it key seq m = Some it ->
  find_it key seq (delete it m) = None.
Proof.
  intros Hu Hit. destruct (find_it_Some _ _ _ _ Hit) as (e & He & Hs).
  apply find_it_None. intros j e' Hj Hs'.
  assert (Hj' : m !! (if decide (j < it)%nat then j else S j) = Some (key, e')).
  { case_decide.
    - by rewrite list_lookup_delete_lt in Hj.
    - by rewrite list_lookup_delete_ge in Hj by lia. }
  unfold unique_keys in Hu. rewrite NoDup_alt in Hu.
  assert (it = if decide (j < it)%nat then j else S j) as Heq.
  { eapply Hu; rewrite list_lookup_fmap.
    - by rewrite He.
    - rewrite Hj'. unfold key_of. simpl. by rewrite Hs, Hs'. }
  case_decide; lia.
Qed.

Lemma find_it_keys key seq (m m' : pgas_send_info_map_t) :
  key_of <$> m = key_of <$> m' -> find_it key seq m = find_it key seq m'.
Proof.
  revert m'. induction m as [|[k e] m IH]; intros [|[k' e'] m']; simpl;
    try discriminate; [reflexivity|].
  unfold key_of at 1 3. simpl. intros [= -> -> Hrest].
  by rewrite (IH m' Hrest).
Qed.

Lemma find_it_completed key seq m it k e d :
  m !! it = Some (k, e) -> SeqNum d = SeqNum e ->
  find_it key seq (<[it := (k, d)]> m) = find_it key seq m.
Proof.
  intros He Hd. apply find_it_keys. rewrite list_fmap_insert.
  apply list_insert_id. rewrite list_lookup_fmap, He. simpl.
  unfold key_of. simpl. by rewrite Hd.
Qed.

(** The descriptor of a source half and a destination half has both its
    addresses, so the modelled [check] accepts it. *)
Lemma check_spec_transfer sa da :
  complementary sa da -> check_spec (transfer sa da) = true.
Proof.
  intros (Hsa & Hda & _). unfold check_spec, transfer. simpl.
  apply andb_true_iff in Hsa as [-> _], Hda as [_ ->]. reflexivity.
Qed.

(** The table of a process starts empty, so its keys are unique after any
    sequence of calls. *)
Lemma unique_keys_from_empty check calls i tr :
  unique_keys
    (pgas_send_info_map
       (final (run check calls
                 {| pgas_send_info_map := []; ints := i; trace := tr |}))).
Proof. apply run_unique_keys. apply NoDup_nil_2. Qed.

(** * The claims *)

(** C1.  A source half and a destination half of one transfer, announced in
    either order over a table that has no entry for their key, with a
    descriptor that [check] accepts and a counter that can be incremented:
    the two calls return, exactly one copy is issued, the counter of the
    source half goes from [v] to [v + 1], the table is what it was and has
    no entry for the key. *)
Theorem C1_one_copy_either_order check sa da s v first second :
  complementary sa da ->
  absent (pgas_send_info_map s) sa ->
  check (transfer sa da) = true ->
  send_counter sa <> 0%N ->
  ints s !! send_counter sa = Some v -> v < INT_MAX ->
  (first = da /\ second = sa) \/ (first = sa /\ second = da) ->
  exists s',
    run check [first; second] s = Ok tt s' /\
    copies (trace s') = copies (trace s) ++ [copy_of (transfer sa da)] /\
    ints s' = <[send_counter sa := v + 1]> (ints s) /\
    ints s' !! send_counter sa = Some (v + 1) /\
    pgas_send_info_map s' = pgas_send_info_map s /\
    absent (pgas_send_info_map s') sa /\
    absent (pgas_send_info_map s') da.
Proof.
  intros (Hsa & Hda & Hrank & Hseq & Hn) Habs Hck Hc Hv Hlt Hord.
  eexists. split.
  { by apply (pair_fires check sa da s v). }
  simpl. split_and!.
  - rewrite copies_app. simpl.
    destruct Hord as [[-> _]|[-> _]]; reflexivity.
  - reflexivity.
  - apply lookup_insert_eq.
  - reflexivity.
  - assumption.
  - by apply (absent_same_key _ sa da).
Qed.

(** C1 at work: destination half then source half of transfer 7 while a
    half of transfer 9 waits; the counter goes from 5 to 6. *)
Lemma C1_witness :
  exists s',
    run check_spec [dst7; src7] waiting9 = Ok tt s' /\
    copies (trace s') = copies (trace waiting9) ++ [copy_of (transfer src7 dst7)] /\
    ints s' = <[send_counter src7 := 5 + 1]> (ints waiting9) /\
    ints s' !! send_counter src7 = Some (5 + 1) /\
    pgas_send_info_map s' = pgas_send_info_map waiting9 /\
    absent (pgas_send_info_map s') src7 /\
    absent (pgas_send_info_map s') dst7.
Proof.
  apply (C1_one_copy_either_order check_spec src7 dst7 waiting9 5 dst7 src7).
  - repeat split.
  - reflexivity.
  - reflexivity.
  - discriminate.
  - reflexivity.
  - reflexivity.
  - left. split; reflexivity.
Defined.

Lemma behind_map m s :
  pgas_send_info_map (behind m s) = m ++ pgas_send_info_map s.
Proof. reflexivity. Qed.

Lemma behind_ints m s : ints (behind m s) = ints s.
Proof. reflexivity. Qed.

Lemma behind_trace m s : trace (behind m s) = trace s.
Proof. reflexivity. Qed.

Lemma run_over_table check calls s :
  Forall (absent (pgas_send_info_map s)) calls ->
  run check calls s =
  behind_out (pgas_send_info_map s) (run check calls (set_map [] s)).
Proof. intros H. by rewrite <- run_behind, behind_nil. Qed.

Lemma fired_app tr tr' : fired (tr ++ tr') = fired tr ++ fired tr'.
Proof. apply List.filter_app. Qed.

(** The second call of a pair over the bare table: what is left of it is
    the same whichever half was stored first. *)
Lemma completed_outcome (check : SendInfo -> bool) sa da first s :
  let o : Outcome unit :=
    if check (transfer sa da)
    then fire O (completed sa da first s)
    else Abort AssertCheck (completed sa da first s) in
  failure o =
    (if check (transfer sa da)
     then if can_incr (send_counter sa) (ints s) then None else Some Undefined
     else Some AssertCheck) /\
  pgas_send_info_map (final o) =
    (if check (transfer sa da) && can_incr (send_counter sa) (ints s)
     then [] else [(where_ (dst_ptr sa), transfer sa da)]) /\
  ints (final o) =
    (if check (transfer sa da) && can_incr (send_counter sa) (ints s)
     then bump (send_counter sa) (ints s) else ints s) /\
  fired (trace (final o)) =
    fired (trace s) ++
    (if check (transfer sa da)
     then if can_incr (send_counter sa) (ints s)
          then [copy_of (transfer sa da); EvIncr (send_counter sa);
                EvErase (where_ (dst_ptr sa)) (transfer sa da)]
          else [copy_of (transfer sa da)]
     else []).
Proof.
  simpl. destruct (check (transfer sa da)); simpl.
  - erewrite fire_spec by reflexivity. unfold can_incr, bump. simpl.
    destruct (send_counter sa =? 0)%N; simpl.
    + rewrite !fired_app. simpl. by rewrite app_nil_r.
    + destruct (ints s !! send_counter sa) as [v|]; simpl.
      * destruct (v <? INT_MAX); simpl; rewrite !fired_app; simpl;
          by rewrite ?app_nil_r.
      * rewrite !fired_app. simpl. by rewrite app_nil_r.
  - rewrite fired_app. simpl. by rewrite app_nil_r.
Qed.

(** C2.  Over a table that has no entry for the key, the destination half
    followed by the source half and the source half followed by the
    destination half end the same way: the same failure or none, the same
    table, the same counters, and the same copy, increment and erasure.
    When [check] accepts the descriptor and the counter can be incremented,
    that is one call of the copy primitive with the source address and done
    event of the source half, the destination address and signal event of
    the destination half and their size, and one increment of the counter
    of the source half. *)
Theorem C2_order_independent check sa da s :
  complementary sa da ->
  absent (pgas_send_info_map s) sa ->
  let ds := run check [da; sa] s in
  let sd := run check [sa; da] s in
  failure ds = failure sd /\
  pgas_send_info_map (final ds) = pgas_send_info_map (final sd) /\
  ints (final ds) = ints (final sd) /\
  fired (trace (final ds)) = fired (trace (final sd)) /\
  (check (transfer sa da) = true ->
   can_incr (send_counter sa) (ints s) = true ->
   failure ds = None /\
   fired (trace (final ds)) =
     fired (trace s) ++
     [EvCopy (src_ptr sa) (dst_ptr da) (nbytes sa)
             (signal_event da) (done_event sa);
      EvIncr (send_counter sa);
      EvErase (where_ (dst_ptr sa)) (transfer sa da)] /\
   ints (final ds) = bump (send_counter sa) (ints s)).
Proof.
  intros (Hsa & Hda & Hrank & Hseq & Hn) Habs ds sd. subst ds sd.
  rewrite (run_pair check sa da s da sa) by auto.
  rewrite (run_pair check sa da s sa da) by auto.
  rewrite !failure_behind_out, !final_behind_out.
  pose proof (completed_outcome check sa da da (set_map [] s)) as H1.
  pose proof (completed_outcome check sa da sa (set_map [] s)) as H2.
  cbv zeta in H1, H2.
  destruct H1 as (Hf1 & Hm1 & Hi1 & Ht1), H2 as (Hf2 & Hm2 & Hi2 & Ht2).
  change (ints (set_map [] s)) with (ints s) in *.
  change (trace (set_map [] s)) with (trace s) in *.
  rewrite !behind_map, !behind_ints, !behind_trace.
  rewrite Hf1, Hf2, Hm1, Hm2, Hi1, Hi2, Ht1, Ht2.
  split_and!; try reflexivity.
  intros Hck Hinc. rewrite Hck, Hinc. split_and!; reflexivity.
Qed.

(** C2 at work on the two halves of transfer 7. *)
Lemma C2_witness :
  let ds := run check_spec [dst7; src7] waiting9 in
  let sd := run check_spec [src7; dst7] waiting9 in
  failure ds = failure sd /\
  pgas_send_info_map (final ds) = pgas_send_info_map (final sd) /\
  ints (final ds) = ints (final sd) /\
  fired (trace (final ds)) = fired (trace (final sd)) /\
  (check_spec (transfer src7 dst7) = true ->
   can_incr (send_counter src7) (ints waiting9) = true ->
   failure ds = None /\
   fired (trace (final ds)) =
     fired (trace waiting9) ++
     [EvCopy (src_ptr src7) (dst_ptr dst7) (nbytes src7)
             (signal_event dst7) (done_event src7);
      EvIncr (send_counter src7);
      EvErase (where_ (dst_ptr src7)) (transfer src7 dst7)] /\
   ints (final ds) = bump (send_counter src7) (ints waiting9)).
Proof.
  apply (C2_order_independent check_spec src7 dst7 waiting9).
  - repeat split.
  - reflexivity.
Defined.

(** C3, as the claim has it, fails.  Destination half then source half of
    transfer 7 from the fresh state: the second call matches and fires, and
    its copy is effect 1 of the trace while its erasure is effect 3.  The
    state in which the copy primitive is called is the one [merge] leaves,
    and the loop finds the key there. *)
Lemma C3_counterexample :
  trace (final (run check_spec [dst7; src7] fresh)) =
    [EvInsert 3%N dst7; copy_of (transfer src7 dst7); EvIncr 70%N;
     EvErase 3%N (transfer src7 dst7)] /\
  ~ erase_precedes_copy (trace (final (run check_spec [dst7; src7] fresh))) /\
  (exists s1,
     merge check_spec O (src_ptr src7) (dst_ptr src7) (nbytes src7)
       (signal_event src7) (done_event src7) (send_counter src7)
       (final (announce check_spec dst7 fresh)) = Ok tt s1 /\
     find_it 3%N 7 (pgas_send_info_map s1) = Some O).
Proof.
  split; [reflexivity|]. split.
  - intros H. specialize (H 1%nat 3%nat eq_refl eq_refl). lia.
  - eexists. split; reflexivity.
Qed.

(** C3, amended.  A call that matches the entry at [it] and returns did the
    following, in this order: it completed the stored descriptor in place,
    with no effect on the trace and with the loop still finding the key at
    [it]; from that state it called the copy primitive, incremented the
    counter and erased the entry, which is the last of its effects.  When
    it returns the entry is gone, and with it the key if keys were
    unique. *)
Theorem C3_copy_then_erase check src dst n seq sg dn c s s' it :
  find_it (where_ dst) seq (pgas_send_info_map s) = Some it ->
  Send check src dst n seq sg dn c s = Ok tt s' ->
  exists k d s1,
    merge check it src dst n sg dn c s = Ok tt s1 /\
    trace s1 = trace s /\
    pgas_send_info_map s1 !! it = Some (k, d) /\
    find_it (where_ dst) seq (pgas_send_info_map s1) = Some it /\
    fire it s1 = Ok tt s' /\
    trace s' = trace s ++ [copy_of d; EvIncr (send_counter d); EvErase k d] /\
    pgas_send_info_map s' = delete it (pgas_send_info_map s) /\
    (unique_keys (pgas_send_info_map s) ->
     find_it (where_ dst) seq (pgas_send_info_map s') = None).
Proof.
  intros Hit Hok.
  destruct (find_it_Some _ _ _ _ Hit) as (e & He & Hseq).
  pose proof (lookup_lt_Some _ _ _ He) as Hlen.
  rewrite (Send_match _ _ _ _ _ _ _ _ _ it) in Hok by exact Hit.
  unfold bind in Hok.
  destruct (merge check it src dst n sg dn c s) as [[] s1|f s1] eqn:Hm;
    [|discriminate].
  erewrite merge_spec in Hm by exact He.
  destruct (negb (n =? nbytes e)%N); [discriminate|].
  destruct (negb (is_null (src_ptr e)) && negb (is_null (dst_ptr e)));
    [discriminate|].
  simpl in Hm. destruct (check _); [|discriminate].
  injection Hm as <-.
  assert (Hd : pgas_send_info_map
                 (set_map (<[it:=(where_ dst, merged e src dst sg dn c)]>
                             (pgas_send_info_map s)) s) !! it =
               Some (where_ dst, merged e src dst sg dn c))
    by (by apply list_lookup_insert_eq).
  exists (where_ dst), (merged e src dst sg dn c). eexists.
  split; [reflexivity|]. split; [reflexivity|]. split; [exact Hd|].
  split.
  { simpl. erewrite find_it_completed; eauto using merged_SeqNum. }
  split; [exact Hok|].
  erewrite fire_spec in Hok by exact Hd. simpl in Hok.
  destruct (send_counter _ =? 0)%N; [discriminate|].
  destruct (ints s !! _) as [v|]; [|discriminate].
  destruct (v <? INT_MAX); [|discriminate].
  injection Hok as <-. simpl. rewrite delete_insert_same.
  split_and!; try reflexivity.
  intros Hu. by apply find_it_erased.
Qed.

(** The amended C3 at work: the source half of transfer 7 finds its
    destination half at position 1, behind the waiting half of transfer 9. *)
Lemma C3_witness :
  exists k d s1,
    merge check_spec 1 (src_ptr src7) (dst_ptr src7) (nbytes src7)
      (signal_event src7) (done_event src7) (send_counter src7)
      (final (announce check_spec dst7 waiting9)) = Ok tt s1 /\
    trace s1 = trace (final (announce check_spec dst7 waiting9)) /\
    pgas_send_info_map s1 !! 1%nat = Some (k, d) /\
    find_it (where_ (dst_ptr src7)) 7 (pgas_send_info_map s1) = Some 1%nat /\
    fire 1 s1 = Ok tt (final (run check_spec [dst7; src7] waiting9)) /\
    trace (final (run check_spec [dst7; src7] waiting9)) =
      trace (final (announce check_spec dst7 waiting9)) ++
      [copy_of d; EvIncr (send_counter d); EvErase k d] /\
    pgas_send_info_map (final (run check_spec [dst7; src7] waiting9)) =
      delete 1%nat
        (pgas_send_info_map (final (announce check_spec dst7 waiting9))) /\
    (unique_keys
       (pgas_send_info_map (final (announce check_spec dst7 waiting9))) ->
     find_it (where_ (dst_ptr src7)) 7
       (pgas_send_info_map (final (run check_spec [dst7; src7] waiting9))) =
     None).
Proof.
  apply (C3_copy_then_erase check_spec (src_ptr src7) (dst_ptr src7)
           (nbytes src7) 7 (signal_event src7) (done_event src7)
           (send_counter src7)).
  - reflexivity.
  - reflexivity.
Defined.

(** C4, as the claim has it, fails.  Two source halves for rank 3 and tag
    7, of 1024 and of 128 bytes, no destination half: the second call stops
    at the size assertion of line 79, before the roles are looked at. *)
Lemma C4_counterexample :
  is_source_half src7 = true /\ is_source_half src7_128 = true /\
  where_ (dst_ptr src7) = where_ (dst_ptr src7_128) /\
  SeqNum src7 = SeqNum src7_128 /\
  failure (run check_spec [src7; src7_128] fresh) = Some AssertNbytes /\
  failure (run check_spec [src7; src7_128] fresh) <> Some AssertCheck.
Proof. repeat split; discriminate. Qed.

(** C4, amended.  Two source halves for the same rank and tag, over a table
    that has no entry for the key: the first is stored and the second call
    does not return.  When the sizes agree it stops in [check], since the
    descriptor still has no destination address; when they differ it stops
    at the size assertion.  Either way no copy is issued and no counter is
    changed. *)
Theorem C4_duplicate_source a1 a2 s :
  is_source_half a1 = true -> is_source_half a2 = true ->
  where_ (dst_ptr a1) = where_ (dst_ptr a2) -> SeqNum a1 = SeqNum a2 ->
  absent (pgas_send_info_map s) a1 ->
  exists s',
    run check_spec [a1; a2] s =
      Abort (if (nbytes a2 =? nbytes a1)%N then AssertCheck
             else AssertNbytes) s' /\
    trace s' = trace s ++ [EvInsert (where_ (dst_ptr a1)) a1] /\
    copies (trace s') = copies (trace s) /\
    ints s' = ints s.
Proof.
  intros H1 H2 Hrank Hseq Habs.
  assert (Hboth : Forall (absent (pgas_send_info_map s)) [a1; a2]).
  { repeat constructor; [assumption|]. by apply (absent_same_key _ a1 a2). }
  apply andb_true_iff in H1 as [H1s H1d], H2 as [H2s H2d].
  apply negb_true_iff in H1s, H2s.
  rewrite (run_over_table _ _ _ Hboth).
  rewrite run_two. unfold bind.
  rewrite announce_stores by reflexivity.
  unfold announce. rewrite (Send_match _ _ _ _ _ _ _ _ _ O); cycle 1.
  { simpl. by rewrite Hrank, Hseq, N.eqb_refl, Z.eqb_refl. }
  unfold bind. erewrite merge_spec by reflexivity.
  destruct (nbytes a2 =? nbytes a1)%N; simpl.
  - rewrite H1s, H1d. simpl. unfold merged. rewrite H1s.
    unfold check_spec. simpl. rewrite H2d, andb_false_r. simpl.
    eexists. split; [reflexivity|]. simpl.
    rewrite copies_app. simpl. by rewrite app_nil_r.
  - eexists. split; [reflexivity|]. simpl.
    rewrite copies_app. simpl. by rewrite app_nil_r.
Qed.

(** The amended C4 at work: a second source half of the same size stops in
    [check]. *)
Lemma C4_witness :
  exists s',
    run check_spec [src7; src7_again] waiting9 =
      Abort (if (nbytes src7_again =? nbytes src7)%N then AssertCheck
             else AssertNbytes) s' /\
    trace s' = trace waiting9 ++ [EvInsert (where_ (dst_ptr src7)) src7] /\
    copies (trace s') = copies (trace waiting9) /\
    ints s' = ints waiting9.
Proof.
  apply (C4_duplicate_source src7 src7_again waiting9); reflexivity.
Defined.

(** C5.  A call that matches an entry whose [src_ptr] is null and whose
    size is the announced one writes the call's [src], [done_event] and
    [send_counter] into the entry, in place, and leaves its other members.
    Then [check] stops the call, before any copy, when the entry's
    [dst_ptr] is null (or the [src] just written is); otherwise the call
    goes on to fire the completed entry. *)
Theorem C5_source_completes src dst n seq sg dn c s it k e :
  find_it (where_ dst) seq (pgas_send_info_map s) = Some it ->
  pgas_send_info_map s !! it = Some (k, e) ->
  is_null (src_ptr e) = true ->
  n = nbytes e ->
  let d := with_source e src dn c in
  let s1 := set_map (<[it := (k, d)]> (pgas_send_info_map s)) s in
  (src_ptr d = src /\ done_event d = dn /\ send_counter d = c) /\
  (dst_ptr d = dst_ptr e /\ nbytes d = nbytes e /\ SeqNum d = SeqNum e /\
   signal_event d = signal_event e) /\
  pgas_send_info_map s1 !! it = Some (k, d) /\
  trace s1 = trace s /\
  Send check_spec src dst n seq sg dn c s =
    (if is_null (dst_ptr e) || is_null src
     then Abort AssertCheck s1
     else fire it s1) /\
  (is_null (dst_ptr e) = true ->
   Send check_spec src dst n seq sg dn c s = Abort AssertCheck s1).
Proof.
  intros Hit He Hnull -> d s1.
  pose proof (lookup_lt_Some _ _ _ He) as Hlen.
  assert (Hsend : Send check_spec src dst (nbytes e) seq sg dn c s =
                  if is_null (dst_ptr e) || is_null src
                  then Abort AssertCheck s1 else fire it s1).
  { rewrite (Send_match _ _ _ _ _ _ _ _ _ it) by exact Hit.
    unfold bind. erewrite merge_spec by exact He.
    rewrite N.eqb_refl, Hnull. simpl. unfold merged. rewrite Hnull.
    fold d. fold s1. unfold check_spec. simpl.
    by destruct (is_null src), (is_null (dst_ptr e)). }
  split_and!; try reflexivity.
  - by apply list_lookup_insert_eq.
  - exact Hsend.
  - intros Hd. by rewrite Hsend, Hd.
Qed.

(** C5 at work: the source half of transfer 7 completes the stored
    destination half. *)
Lemma C5_witness :
  let s := final (announce check_spec dst7 waiting9) in
  let d := with_source dst7 (src_ptr src7) (done_event src7)
             (send_counter src7) in
  let s1 := set_map (<[1%nat := (3%N, d)]> (pgas_send_info_map s)) s in
  (src_ptr d = src_ptr src7 /\ done_event d = done_event src7 /\
   send_counter d = send_counter src7) /\
  (dst_ptr d = dst_ptr dst7 /\ nbytes d = nbytes dst7 /\
   SeqNum d = SeqNum dst7 /\ signal_event d = signal_event dst7) /\
  pgas_send_info_map s1 !! 1%nat = Some (3%N, d) /\
  trace s1 = trace s /\
  Send check_spec (src_ptr src7) (dst_ptr src7) 1024 7 (signal_event src7)
       (done_event src7) (send_counter src7) s =
    (if is_null (dst_ptr dst7) || is_null (src_ptr src7)
     then Abort AssertCheck s1
     else fire 1 s1) /\
  (is_null (dst_ptr dst7) = true ->
   Send check_spec (src_ptr src7) (dst_ptr src7) 1024 7 (signal_event src7)
        (done_event src7) (send_counter src7) s = Abort AssertCheck s1).
Proof.
  intros s.
  apply (C5_source_completes (src_ptr src7) (dst_ptr src7) 1024 7
           (signal_event src7) (done_event src7) (send_counter src7) s
           1 3%N dst7); reflexivity.
Defined.

(** C6.  A call that matches an entry of another size stops at the size
    assertion, in the state it was called in: nothing is written, no copy
    is issued, no counter is changed, the entry stays. *)
Theorem C6_size_mismatch_aborts check src dst n seq sg dn c s it k e :
  find_it (where_ dst) seq (pgas_send_info_map s) = Some it ->
  pgas_send_info_map s !! it = Some (k, e) ->
  n <> nbytes e ->
  Send check src dst n seq sg dn c s = Abort AssertNbytes s /\
  copies (trace (final (Send check src dst n seq sg dn c s))) =
    copies (trace s).
Proof.
  intros Hit He Hn.
  assert (Send check src dst n seq sg dn c s = Abort AssertNbytes s) as ->.
  { rewrite (Send_match _ _ _ _ _ _ _ _ _ it) by exact Hit.
    unfold bind. erewrite merge_spec by exact He.
    apply N.eqb_neq in Hn. by rewrite Hn. }
  by split.
Qed.

(** C6 at work: 64 bytes stored, 128 bytes announced. *)
Lemma C6_witness :
  let s := final (announce check_spec dst7_64 waiting9) in
  Send check_spec (src_ptr src7_128) (dst_ptr src7_128) 128 7
       (signal_event src7_128) (done_event src7_128) (send_counter src7_128)
       s = Abort AssertNbytes s /\
  copies (trace (final
    (Send check_spec (src_ptr src7_128) (dst_ptr src7_128) 128 7
       (signal_event src7_128) (done_event src7_128) (send_counter src7_128)
       s))) = copies (trace s).
Proof.
  intros s.
  apply (C6_size_mismatch_aborts check_spec (src_ptr src7_128)
           (dst_ptr src7_128) 128 7 (signal_event src7_128)
           (done_event src7_128) (send_counter src7_128) s 1 3%N dst7_64).
  - reflexivity.
  - reflexivity.
  - discriminate.
Defined.

(** C8.  A call that finds no entry for its key returns after one
    insertion: the new entry is last in the table, stored under
    [dst.where()] and made of the seven arguments; the entries that were
    there are where they were; no copy is issued and no counter is
    changed. *)
Theorem C8_no_match_stores check src dst n seq sg dn c s :
  find_it (where_ dst) seq (pgas_send_info_map s) = None ->
  let d := {| src_ptr := src; dst_ptr := dst; nbytes := n; SeqNum := seq;
              signal_event := sg; done_event := dn; send_counter := c |} in
  exists s',
    Send check src dst n seq sg dn c s = Ok tt s' /\
    pgas_send_info_map s' = pgas_send_info_map s ++ [(where_ dst, d)] /\
    (forall i, (i < length (pgas_send_info_map s))%nat ->
               pgas_send_info_map s' !! i = pgas_send_info_map s !! i) /\
    trace s' = trace s ++ [EvInsert (where_ dst) d] /\
    copies (trace s') = copies (trace s) /\
    ints s' = ints s.
Proof.
  intros Hnone d. rewrite Send_no_match by exact Hnone.
  eexists. split; [reflexivity|]. simpl. split_and!; try reflexivity.
  - intros i Hi. by apply lookup_app_l.
  - rewrite copies_app. simpl. by rewrite app_nil_r.
Qed.

(** C8 at work: the destination half of transfer 7 is stored behind the
    waiting half of transfer 9. *)
Lemma C8_witness :
  let d := {| src_ptr := src_ptr dst7; dst_ptr := dst_ptr dst7;
              nbytes := 1024; SeqNum := 7;
              signal_event := 50%N; done_event := 0%N;
              send_counter := 0%N |} in
  exists s',
    Send check_spec (src_ptr dst7) (dst_ptr dst7) 1024 7 50%N 0%N 0%N
         waiting9 = Ok tt s' /\
    pgas_send_info_map s' =
      pgas_send_info_map waiting9 ++ [(where_ (dst_ptr dst7), d)] /\
    (forall i, (i < length (pgas_send_info_map waiting9))%nat ->
               pgas_send_info_map s' !! i = pgas_send_info_map waiting9 !! i) /\
    trace s' = trace waiting9 ++ [EvInsert (where_ (dst_ptr dst7)) d] /\
    copies (trace s') = copies (trace waiting9) /\
    ints s' = ints waiting9.
Proof.
  apply (C8_no_match_stores check_spec (src_ptr dst7) (dst_ptr dst7) 1024 7
           50%N 0%N 0%N waiting9).
  reflexivity.
Defined.

(** C7.  If no two entries of the table have the same rank and sequence
    number, then after any sequence of calls, wherever it stops, no two
    entries have.  A call that finds an entry for its key never makes the
    table longer, and when it returns that entry has been erased; a call
    that finds none appends one entry. *)
Theorem C7_one_entry_per_key check calls s :
  unique_keys (pgas_send_info_map s) ->
  unique_keys (pgas_send_info_map (final (run check calls s))) /\
  (forall a,
     match find_it (where_ (dst_ptr a)) (SeqNum a) (pgas_send_info_map s) with
     | Some it =>
         (length (pgas_send_info_map (final (announce check a s))) <=
          length (pgas_send_info_map s))%nat /\
         (forall s', announce check a s = Ok tt s' ->
                     pgas_send_info_map s' = delete it (pgas_send_info_map s) /\
                     absent (pgas_send_info_map s') a)
     | None =>
         pgas_send_info_map (final (announce check a s)) =
         pgas_send_info_map s ++ [(where_ (dst_ptr a), a)]
     end).
Proof.
  intros Hu. split; [by apply run_unique_keys|].
  intros a.
  destruct (find_it _ _ _) as [it|] eqn:F.
  - destruct (find_it_Some _ _ _ _ F) as (e & He & _).
    pose proof (Send_match_map check (src_ptr a) (dst_ptr a) (nbytes a)
      (SeqNum a) (signal_event a) (done_event a) (send_counter a) s it _ e
      F He) as Hm.
    simpl in Hm. fold (announce check a) in Hm.
    destruct (announce check a s) as [[] s1|f s1]; simpl.
    + split.
      * rewrite Hm, length_delete by eauto. lia.
      * intros s' [= <-]. split; [exact Hm|].
        unfold absent. rewrite Hm. by apply find_it_erased.
    + split; [|discriminate].
      destruct Hm as [-> | ->]; [lia|]. by rewrite length_insert.
  - by rewrite announce_stores.
Qed.

(** C7 at work on a sequence that stores, fires and then stops at a size
    assertion. *)
Lemma C7_witness :
  unique_keys (pgas_send_info_map
    (final (run check_spec [dst7; dst8; src8; src7_128; src7] waiting9))) /\
  (forall a,
     match find_it (where_ (dst_ptr a)) (SeqNum a)
             (pgas_send_info_map waiting9) with
     | Some it =>
         (length (pgas_send_info_map (final (announce check_spec a waiting9)))
          <= length (pgas_send_info_map waiting9))%nat /\
         (forall s', announce check_spec a waiting9 = Ok tt s' ->
                     pgas_send_info_map s' =
                       delete it (pgas_send_info_map waiting9) /\
                     absent (pgas_send_info_map s') a)
     | None =>
         pgas_send_info_map (final (announce check_spec a waiting9)) =
         pgas_send_info_map waiting9 ++ [(where_ (dst_ptr a), a)]
     end).
Proof.
  apply (C7_one_entry_per_key check_spec
           [dst7; dst8; src8; src7_128; src7] waiting9).
  unfold unique_keys. simpl. apply NoDup_singleton.
Defined.

(** C9.  Two transfers to one rank under different sequence numbers, each
    a source half and a destination half, announced in any of the 24
    orders over a table that has no entry for either key: a call only ever
    matches an entry that carries its own sequence number; the four calls
    return; each transfer is copied once, with its own addresses and size;
    the counters have been incremented twice; the table is what it was,
    with no entry for either key. *)
Theorem C9_tags_do_not_mix check s1 d1 s2 d2 s calls :
  complementary s1 d1 -> complementary s2 d2 ->
  where_ (dst_ptr s1) = where_ (dst_ptr s2) ->
  SeqNum s1 <> SeqNum s2 ->
  absent (pgas_send_info_map s) s1 -> absent (pgas_send_info_map s) s2 ->
  check (transfer s1 d1) = true -> check (transfer s2 d2) = true ->
  can_incr (send_counter s1) (ints s) = true ->
  can_incr (send_counter s2) (bump (send_counter s1) (ints s)) = true ->
  calls ≡ₚ [d1; s1; d2; s2] ->
  (forall a m it k e,
     find_it (where_ (dst_ptr a)) (SeqNum a) m = Some it ->
     m !! it = Some (k, e) -> k = where_ (dst_ptr a) /\ SeqNum e = SeqNum a) /\
  exists s',
    run check calls s = Ok tt s' /\
    (copies (trace s') = copies (trace s) ++
       [EvCopy (src_ptr s1) (dst_ptr d1) (nbytes s1) (signal_event d1)
               (done_event s1);
        EvCopy (src_ptr s2) (dst_ptr d2) (nbytes s2) (signal_event d2)
               (done_event s2)] \/
     copies (trace s') = copies (trace s) ++
       [EvCopy (src_ptr s2) (dst_ptr d2) (nbytes s2) (signal_event d2)
               (done_event s2);
        EvCopy (src_ptr s1) (dst_ptr d1) (nbytes s1) (signal_event d1)
               (done_event s1)]) /\
    ints s' = bump (send_counter s2) (bump (send_counter s1) (ints s)) /\
    pgas_send_info_map s' = pgas_send_info_map s /\
    Forall (absent (pgas_send_info_map s')) [d1; s1; d2; s2].
Proof.
  intros (Hs1 & Hd1 & Hr1 & Ht1 & Hn1) (Hs2 & Hd2 & Hr2 & Ht2 & Hn2)
    Hpeer Htags Ha1 Ha2 Hck1 Hck2 Hi1 Hi2 Hperm.
  split.
  { intros a m it k e Hit He.
    destruct (find_it_Some _ _ _ _ Hit) as (e' & He' & Hs').
    rewrite He in He'. by injection He' as -> ->. }
  assert (Hall : Forall (absent (pgas_send_info_map s)) [d1; s1; d2; s2]).
  { repeat constructor; try assumption.
    - by apply (absent_same_key _ s1 d1).
    - by apply (absent_same_key _ s2 d2). }
  assert (Hcalls : Forall (absent (pgas_send_info_map s)) calls)
    by (by rewrite Hperm).
  destruct (two_tags_base check s1 d1 s2 d2 Hs1 Hd1 Hs2 Hd2 Hr1 Hr2 Hpeer
              Ht1 Ht2 Htags Hn1 Hn2 Hck1 Hck2 (ints s) (trace s) calls
              Hi1 Hi2 Hperm) as (tr' & Hrun & Hcopies).
  rewrite (run_over_table _ _ _ Hcalls). unfold set_map. rewrite Hrun.
  eexists. split; [reflexivity|]. unfold behind, set_map. simpl.
  rewrite app_nil_r. split_and!; auto.
Qed.

(** C9 at work on the order dest-7, dest-8, src-8, src-7. *)
Lemma C9_witness :
  (forall a m it k e,
     find_it (where_ (dst_ptr a)) (SeqNum a) m = Some it ->
     m !! it = Some (k, e) -> k = where_ (dst_ptr a) /\ SeqNum e = SeqNum a) /\
  exists s',
    run check_spec [dst7; dst8; src8; src7] waiting9 = Ok tt s' /\
    (copies (trace s') = copies (trace waiting9) ++
       [EvCopy (src_ptr src7) (dst_ptr dst7) (nbytes src7)
               (signal_event dst7) (done_event src7);
        EvCopy (src_ptr src8) (dst_ptr dst8) (nbytes src8)
               (signal_event dst8) (done_event src8)] \/
     copies (trace s') = copies (trace waiting9) ++
       [EvCopy (src_ptr src8) (dst_ptr dst8) (nbytes src8)
               (signal_event dst8) (done_event src8);
        EvCopy (src_ptr src7) (dst_ptr dst7) (nbytes src7)
               (signal_event dst7) (done_event src7)]) /\
    ints s' = bump (send_counter src8)
                (bump (send_counter src7) (ints waiting9)) /\
    pgas_send_info_map s' = pgas_send_info_map waiting9 /\
    Forall (absent (pgas_send_info_map s')) [dst7; src7; dst8; src8].
Proof.
  apply (C9_tags_do_not_mix check_spec src7 dst7 src8 dst8 waiting9
           [dst7; dst8; src8; src7]).
  - repeat split.
  - repeat split.
  - reflexivity.
  - discriminate.
  - reflexivity.
  - reflexivity.
  - reflexivity.
  - reflexivity.
  - reflexivity.
  - reflexivity.
  - apply (Permutation_trans (l' := [dst7; src7; dst8; src8])).
    + apply perm_skip. apply Permutation_trans with (l' := [dst8; src7; src8]).
      * apply perm_skip. apply perm_swap.
      * apply perm_swap.
    + reflexivity.
Defined.

(** A call that finds an entry for its key does not store: it adds no
    insertion to the trace and the table is no longer afterwards, however
    the call ends. *)
Lemma match_never_stores check src dst n seq sg dn c s it :
  find_it (where_ dst) seq (pgas_send_info_map s) = Some it ->
  let o := Send check src dst n seq sg dn c s in
  List.filter is_insert (new_effects s o) = [] /\
  (length (pgas_send_info_map (final o)) <= length (pgas_send_info_map s))%nat.
Proof.
  intros Hit o. subst o.
  destruct (find_it_Some _ _ _ _ Hit) as (e & He & _).
  pose proof (lookup_lt_Some _ _ _ He) as Hlen.
  rewrite (Send_match _ _ _ _ _ _ _ _ _ it) by exact Hit.
  unfold bind. erewrite merge_spec by exact He.
  unfold new_effects.
  destruct (negb (n =? nbytes e)%N);
    [simpl; by rewrite drop_all|].
  destruct (negb (is_null (src_ptr e)) && negb (is_null (dst_ptr e)));
    [simpl; by rewrite drop_all|].
  simpl. destruct (check _); simpl;
    [|rewrite drop_all, length_insert; by split].
  erewrite fire_spec; cycle 1.
  { simpl. by apply list_lookup_insert_eq. }
  simpl. destruct (send_counter _ =? 0)%N; simpl;
    [rewrite drop_app_length, length_insert; by split|].
  destruct (ints s !! _) as [v|]; simpl;
    [|rewrite drop_app_length, length_insert; by split].
  destruct (v <? INT_MAX); simpl;
    rewrite drop_app_length, ?length_insert; [|by split].
  split; [reflexivity|].
  rewrite delete_insert_same, length_delete by eauto. lia.
Qed.

(** C10.  [Send] stores and looks up under [dst.where()], and the rank of
    [src] takes no part.  For one call over any table: if some entry is
    stored under the rank of the call's [dst] and carries the call's
    sequence number, the call does not store, whatever the ranks of the
    source addresses; if no entry is, the call stores its seven arguments
    under the rank of its [dst].  For two calls over a table that has no
    entry for either: the first is stored under the rank of its [dst]; the
    second works on the entry of the first (the size assertion, the
    completion in place, [check], the copy, the counter, the erasure, all
    at that entry) when the ranks of their [dst] and their sequence
    numbers are equal, and is stored beside it when either differs. *)
Theorem C10_keyed_by_destination_rank check a b s :
  absent (pgas_send_info_map s) a ->
  absent (pgas_send_info_map s) b ->
  let m := pgas_send_info_map s in
  let s1 := {| pgas_send_info_map := m ++ [(where_ (dst_ptr a), a)];
               ints := ints s;
               trace := trace s ++ [EvInsert (where_ (dst_ptr a)) a] |} in
  (forall c s0 i e,
     pgas_send_info_map s0 !! i = Some (where_ (dst_ptr c), e) ->
     SeqNum e = SeqNum c ->
     List.filter is_insert (new_effects s0 (announce check c s0)) = [] /\
     (length (pgas_send_info_map (final (announce check c s0))) <=
      length (pgas_send_info_map s0))%nat) /\
  (forall c s0,
     (forall i k e, pgas_send_info_map s0 !! i = Some (k, e) ->
                    k = where_ (dst_ptr c) -> SeqNum e <> SeqNum c) ->
     announce check c s0 =
     Ok tt {| pgas_send_info_map :=
                pgas_send_info_map s0 ++ [(where_ (dst_ptr c), c)];
              ints := ints s0;
              trace := trace s0 ++ [EvInsert (where_ (dst_ptr c)) c] |}) /\
  announce check a s = Ok tt s1 /\
  (where_ (dst_ptr a) = where_ (dst_ptr b) -> SeqNum a = SeqNum b ->
   announce check b s1 =
     (merge check (length m) (src_ptr b) (dst_ptr b) (nbytes b)
        (signal_event b) (done_event b) (send_counter b) >>
      fire (length m)) s1 /\
   List.filter is_insert (new_effects s1 (announce check b s1)) = [] /\
   (length (pgas_send_info_map (final (announce check b s1))) <=
    length (pgas_send_info_map s1))%nat) /\
  (where_ (dst_ptr a) <> where_ (dst_ptr b) \/ SeqNum a <> SeqNum b ->
   announce check b s1 =
   Ok tt {| pgas_send_info_map :=
              (m ++ [(where_ (dst_ptr a), a)]) ++ [(where_ (dst_ptr b), b)];
            ints := ints s;
            trace := (trace s ++ [EvInsert (where_ (dst_ptr a)) a]) ++
                     [EvInsert (where_ (dst_ptr b)) b] |}).
Proof.
  intros Ha Hb m s1. subst s1 m. split_and!.
  - intros c s0 i e He Hs.
    destruct (find_it (where_ (dst_ptr c)) (SeqNum c) (pgas_send_info_map s0))
      as [it|] eqn:F.
    + unfold announce. by apply (match_never_stores _ _ _ _ _ _ _ _ _ it).
    + rewrite find_it_None in F. by destruct (F i e He).
  - intros c s0 Hnone. apply announce_stores. unfold absent.
    apply find_it_None. intros i e He. by apply (Hnone i _ e He).
  - by apply announce_stores.
  - intros Hrank Hseq.
    assert (F : find_it (where_ (dst_ptr b)) (SeqNum b)
                  (pgas_send_info_map s ++ [(where_ (dst_ptr a), a)]) =
                Some (length (pgas_send_info_map s))).
    { unfold absent in Hb. rewrite find_it_app, Hb. simpl.
      rewrite Hrank, Hseq, N.eqb_refl, Z.eqb_refl. simpl. f_equal. lia. }
    split.
    + unfold announce. by apply Send_match.
    + unfold announce.
      by apply (match_never_stores _ _ _ _ _ _ _ _ _
                  (length (pgas_send_info_map s))).
  - intros Hne. apply announce_stores. unfold absent.
    simpl. unfold absent in Hb. rewrite find_it_app, Hb. simpl.
    destruct (where_ (dst_ptr a) =? where_ (dst_ptr b))%N eqn:Er;
      [|reflexivity].
    destruct (SeqNum b =? SeqNum a) eqn:Es; [|reflexivity].
    apply N.eqb_eq in Er. apply Z.eqb_eq in Es.
    destruct Hne; congruence.
Qed.

(** C10 at work: the two halves of transfer 7 carry different ranks in
    their [src] (0 and 5) and the same rank in their [dst]; they meet under
    rank 3, behind the waiting half of transfer 9. *)
Lemma C10_witness :
  let m := pgas_send_info_map waiting9 in
  let s1 := {| pgas_send_info_map := m ++ [(where_ (dst_ptr dst7), dst7)];
               ints := ints waiting9;
               trace := trace waiting9 ++
                        [EvInsert (where_ (dst_ptr dst7)) dst7] |} in
  (forall c s0 i e,
     pgas_send_info_map s0 !! i = Some (where_ (dst_ptr c), e) ->
     SeqNum e = SeqNum c ->
     List.filter is_insert (new_effects s0 (announce check_spec c s0)) = [] /\
     (length (pgas_send_info_map (final (announce check_spec c s0))) <=
      length (pgas_send_info_map s0))%nat) /\
  (forall c s0,
     (forall i k e, pgas_send_info_map s0 !! i = Some (k, e) ->
                    k = where_ (dst_ptr c) -> SeqNum e <> SeqNum c) ->
     announce check_spec c s0 =
     Ok tt {| pgas_send_info_map :=
                pgas_send_info_map s0 ++ [(where_ (dst_ptr c), c)];
              ints := ints s0;
              trace := trace s0 ++ [EvInsert (where_ (dst_ptr c)) c] |}) /\
  announce check_spec dst7 waiting9 = Ok tt s1 /\
  (where_ (dst_ptr dst7) = where_ (dst_ptr src7_far) ->
   SeqNum dst7 = SeqNum src7_far ->
   announce check_spec src7_far s1 =
     (merge check_spec (length m) (src_ptr src7_far) (dst_ptr src7_far)
        (nbytes src7_far) (signal_event src7_far) (done_event src7_far)
        (send_counter src7_far) >>
      fire (length m)) s1 /\
   List.filter is_insert
     (new_effects s1 (announce check_spec src7_far s1)) = [] /\
   (length (pgas_send_info_map (final (announce check_spec src7_far s1))) <=
    length (pgas_send_info_map s1))%nat) /\
  (where_ (dst_ptr dst7) <> where_ (dst_ptr src7_far) \/
   SeqNum dst7 <> SeqNum src7_far ->
   announce check_spec src7_far s1 =
   Ok tt {| pgas_send_info_map :=
              (m ++ [(where_ (dst_ptr dst7), dst7)]) ++
              [(where_ (dst_ptr src7_far), src7_far)];
            ints := ints waiting9;
            trace := (trace waiting9 ++
                      [EvInsert (where_ (dst_ptr dst7)) dst7]) ++
                     [EvInsert (where_ (dst_ptr src7_far)) src7_far] |}).
Proof.
  apply (C10_keyed_by_destination_rank check_spec dst7 src7_far waiting9);
    reflexivity.
Defined.

(** * Further properties of [Send] *)

(** ** The whole of a matching call

    Lines 76-117 as one case analysis on the entry found and the state. *)
Lemma Send_match_outcome check src dst n seq sg dn c s it k e :
  find_it (where_ dst) seq (pgas_send_info_map s) = Some it ->
  pgas_send_info_map s !! it = Some (k, e) ->
  let d := merged e src dst sg dn c in
  let m := pgas_send_info_map s in
  Send check src dst n seq sg dn c s =
  if negb (n =? nbytes e)%N then Abort AssertNbytes s
  else if negb (is_null (src_ptr e)) && negb (is_null (dst_ptr e))
  then Abort AssertDstNull s
  else if negb (check d)
  then Abort AssertCheck (set_map (<[it := (k, d)]> m) s)
  else if can_incr (send_counter d) (ints s)
  then Ok tt {| pgas_send_info_map := delete it m;
                ints := bump (send_counter d) (ints s);
                trace := trace s ++
                         [copy_of d; EvIncr (send_counter d); EvErase k d] |}
  else Abort Undefined
         {| pgas_send_info_map := <[it := (k, d)]> m;
            ints := ints s;
            trace := trace s ++ [copy_of d] |}.
Proof.
  intros Hit He d m. pose proof (lookup_lt_Some _ _ _ He) as Hlen.
  rewrite (Send_match _ _ _ _ _ _ _ _ _ it) by exact Hit.
  unfold bind. erewrite merge_spec by exact He.
  destruct (negb (n =? nbytes e)%N); [reflexivity|].
  destruct (negb (is_null (src_ptr e)) && negb (is_null (dst_ptr e)));
    [reflexivity|].
  simpl. fold d. destruct (check d); simpl; [|reflexivity].
  erewrite fire_spec; cycle 1.
  { simpl. by apply list_lookup_insert_eq. }
  simpl. unfold can_incr, bump.
  destruct (send_counter d =? 0)%N; simpl; [reflexivity|].
  destruct (ints s !! send_counter d) as [v|]; [|reflexivity].
  destruct (v <? INT_MAX); [|reflexivity].
  by rewrite delete_insert_same.
Qed.

Lemma Send_match_fire check src dst n seq sg dn c s it k e :
  find_it (where_ dst) seq (pgas_send_info_map s) = Some it ->
  pgas_send_info_map s !! it = Some (k, e) ->
  n = nbytes e ->
  is_null (src_ptr e) || is_null (dst_ptr e) = true ->
  let d := merged e src dst sg dn c in
  let s1 := set_map (<[it := (k, d)]> (pgas_send_info_map s)) s in
  Send check src dst n seq sg dn c s =
  if check d then fire it s1 else Abort AssertCheck s1.
Proof.
  intros Hit He -> Hnull d s1.
  rewrite (Send_match _ _ _ _ _ _ _ _ _ it) by exact Hit.
  unfold bind. erewrite merge_spec by exact He.
  rewrite N.eqb_refl. simpl.
  replace (negb (is_null (src_ptr e)) && negb (is_null (dst_ptr e)))
    with false by (by destruct (is_null (src_ptr e)), (is_null (dst_ptr e))).
  simpl. fold d. fold s1. by destruct (check d).
Qed.

(** X1.  [Send] stores what it is given.  A call that brings both addresses
    and finds no entry is stored like a half; the next call for that key
    and size then stops at the assertion of line 97, with nothing written
    and no copy issued. *)
Theorem X1_both_addresses_block_the_key check a b s :
  is_null (src_ptr a) = false -> is_null (dst_ptr a) = false ->
  where_ (dst_ptr a) = where_ (dst_ptr b) -> SeqNum a = SeqNum b ->
  nbytes a = nbytes b ->
  absent (pgas_send_info_map s) a ->
  run check [a; b] s =
  Abort AssertDstNull
    {| pgas_send_info_map := pgas_send_info_map s ++ [(where_ (dst_ptr a), a)];
       ints := ints s;
       trace := trace s ++ [EvInsert (where_ (dst_ptr a)) a] |}.
Proof.
  intros Hs Hd Hrank Hseq Hn Habs.
  rewrite run_two. unfold bind. rewrite announce_stores by exact Habs.
  unfold announce.
  erewrite (Send_match_outcome _ _ _ _ _ _ _ _ _
              (length (pgas_send_info_map s)) (where_ (dst_ptr a)) a).
  - rewrite <- Hn, N.eqb_refl, Hs, Hd. reflexivity.
  - simpl. rewrite find_it_app.
    rewrite (absent_same_key _ a b Hrank Hseq Habs). simpl.
    rewrite Hrank, Hseq, N.eqb_refl, Z.eqb_refl. simpl. f_equal. lia.
  - simpl. rewrite lookup_app_r by lia.
    by replace (_ - _)%nat with O by lia.
Qed.

(** X1 at work: a descriptor with both addresses, then the destination
    half of the same transfer. *)
Lemma X1_witness :
  run check_spec [both7; dst7] waiting9 =
  Abort AssertDstNull
    {| pgas_send_info_map :=
         pgas_send_info_map waiting9 ++ [(where_ (dst_ptr both7), both7)];
       ints := ints waiting9;
       trace := trace waiting9 ++ [EvInsert (where_ (dst_ptr both7)) both7] |}.
Proof.
  apply (X1_both_addresses_block_the_key check_spec both7 dst7 waiting9);
    reflexivity.
Defined.

(** X2.  The branch of lines 95-99.  A call that matches an entry with a
    source address, no destination address and the announced size writes
    its [dst] and [signal_event] into the entry and goes on to [check] and
    the copy.  Its [src], [done_event] and [send_counter] are not used:
    any other values give the same outcome. *)
Theorem X2_destination_branch check src dst n seq sg dn c s it k e :
  find_it (where_ dst) seq (pgas_send_info_map s) = Some it ->
  pgas_send_info_map s !! it = Some (k, e) ->
  is_null (src_ptr e) = false -> is_null (dst_ptr e) = true ->
  n = nbytes e ->
  let d := with_destination e dst sg in
  let s1 := set_map (<[it := (k, d)]> (pgas_send_info_map s)) s in
  Send check src dst n seq sg dn c s =
    (if check d then fire it s1 else Abort AssertCheck s1) /\
  (forall src' dn' c',
     Send check src' dst n seq sg dn' c' s =
     Send check src dst n seq sg dn c s).
Proof.
  intros Hit He Hs Hd Hn d s1.
  assert (Hall : forall src' dn' c',
            Send check src' dst n seq sg dn' c' s =
            if check d then fire it s1 else Abort AssertCheck s1).
  { intros src' dn' c'.
    rewrite (Send_match_fire check src' dst n seq sg dn' c' s it k e)
      by (rewrite ?Hd, ?orb_true_r; auto).
    unfold merged. rewrite Hs. reflexivity. }
  split; [apply Hall|]. intros src' dn' c'. by rewrite !Hall.
Qed.

(** X2 at work: the destination half of transfer 7 meets the stored source
    half. *)
Lemma X2_witness :
  let s := final (announce check_spec src7 waiting9) in
  let d := with_destination src7 (dst_ptr dst7) 50%N in
  let s1 := set_map (<[1%nat := (3%N, d)]> (pgas_send_info_map s)) s in
  Send check_spec (src_ptr dst7) (dst_ptr dst7) 1024 7 50%N 0%N 0%N s =
    (if check_spec d then fire 1 s1 else Abort AssertCheck s1) /\
  (forall src' dn' c',
     Send check_spec src' (dst_ptr dst7) 1024 7 50%N dn' c' s =
     Send check_spec (src_ptr dst7) (dst_ptr dst7) 1024 7 50%N 0%N 0%N s).
Proof.
  intros s.
  apply (X2_destination_branch check_spec (src_ptr dst7) (dst_ptr dst7)
           1024 7 50%N 0%N 0%N s 1 3%N src7); reflexivity.
Defined.

(** X3.  The branch of lines 86-90 is chosen by the stored entry alone.  A
    call that matches an entry without a source address and with the
    announced size writes its [src], [done_event] and [send_counter] into
    the entry, whatever it brings, and goes on to [check] and the copy.  Of
    its [dst] only the rank is used, and its [signal_event] not at all. *)
Theorem X3_source_branch check src dst n seq sg dn c s it k e :
  find_it (where_ dst) seq (pgas_send_info_map s) = Some it ->
  pgas_send_info_map s !! it = Some (k, e) ->
  is_null (src_ptr e) = true ->
  n = nbytes e ->
  let d := with_source e src dn c in
  let s1 := set_map (<[it := (k, d)]> (pgas_send_info_map s)) s in
  Send check src dst n seq sg dn c s =
    (if check d then fire it s1 else Abort AssertCheck s1) /\
  (forall dst' sg',
     where_ dst' = where_ dst ->
     Send check src dst' n seq sg' dn c s =
     Send check src dst n seq sg dn c s).
Proof.
  intros Hit He Hs Hn d s1.
  assert (Hall : forall dst' sg',
            where_ dst' = where_ dst ->
            Send check src dst' n seq sg' dn c s =
            if check d then fire it s1 else Abort AssertCheck s1).
  { intros dst' sg' Hw.
    rewrite (Send_match_fire check src dst' n seq sg' dn c s it k e)
      by (rewrite ?Hw, ?Hs; auto).
    unfold merged. rewrite Hs. reflexivity. }
  split; [by apply Hall|]. intros dst' sg' Hw. by rewrite !Hall.
Qed.

(** X3 at work: a second destination half for transfer 7 meets the stored
    one and is taken for its source half. *)
Lemma X3_witness :
  let s := final (announce check_spec dst7 waiting9) in
  let d := with_source dst7 (src_ptr dst7_other) 0%N 0%N in
  let s1 := set_map (<[1%nat := (3%N, d)]> (pgas_send_info_map s)) s in
  Send check_spec (src_ptr dst7_other) (dst_ptr dst7_other) 1024 7 53%N
       0%N 0%N s =
    (if check_spec d then fire 1 s1 else Abort AssertCheck s1) /\
  (forall dst' sg',
     where_ dst' = where_ (dst_ptr dst7_other) ->
     Send check_spec (src_ptr dst7_other) dst' 1024 7 sg' 0%N 0%N s =
     Send check_spec (src_ptr dst7_other) (dst_ptr dst7_other) 1024 7 53%N
          0%N 0%N s).
Proof.
  intros s.
  apply (X3_source_branch check_spec (src_ptr dst7_other)
           (dst_ptr dst7_other) 1024 7 53%N 0%N 0%N s 1 3%N dst7);
    reflexivity.
Defined.

Lemma new_effects_app (s : State) (o : Outcome unit) suffix :
  trace (final o) = trace s ++ suffix -> new_effects s o = suffix.
Proof. intros H. unfold new_effects. rewrite H. apply drop_app_length. Qed.

(** X4.  What one call adds to the trace, in every outcome.  Without a
    match it is the insertion.  With a match it is nothing when an
    assertion stops the call; the copy alone when the increment is
    undefined; the copy, the increment and the erasure, in this order, when
    the call returns.  So a call issues at most one copy and never erases
    without having copied. *)
Theorem X4_effects_of_a_call check src dst n seq sg dn c s :
  let o := Send check src dst n seq sg dn c s in
  trace (final o) = trace s ++ new_effects s o /\
  (length (copies (new_effects s o)) <= 1)%nat /\
  match find_it (where_ dst) seq (pgas_send_info_map s) with
  | None =>
      failure o = None /\
      new_effects s o =
        [EvInsert (where_ dst)
           {| src_ptr := src; dst_ptr := dst; nbytes := n; SeqNum := seq;
              signal_event := sg; done_event := dn; send_counter := c |}]
  | Some it =>
      exists e, pgas_send_info_map s !! it = Some (where_ dst, e) /\
      let d := merged e src dst sg dn c in
      (failure o = None /\
       new_effects s o =
         [copy_of d; EvIncr (send_counter d); EvErase (where_ dst) d]) \/
      (failure o = Some Undefined /\ new_effects s o = [copy_of d]) \/
      ((failure o = Some AssertNbytes \/ failure o = Some AssertDstNull \/
        failure o = Some AssertCheck) /\ new_effects s o = [])
  end.
Proof.
  intros o. subst o.
  destruct (find_it (where_ dst) seq (pgas_send_info_map s)) as [it|] eqn:F.
  - destruct (find_it_Some _ _ _ _ F) as (e & He & _).
    rewrite (Send_match_outcome check src dst n seq sg dn c s it _ e F He).
    destruct (negb (n =? nbytes e)%N);
      [|destruct (negb (is_null (src_ptr e)) && negb (is_null (dst_ptr e)));
        [|destruct (negb (check _));
          [|destruct (can_incr _ _)]]].
    all: unfold new_effects; simpl; rewrite ?drop_app_length, ?drop_all.
    all: split; [by rewrite ?app_nil_r|]; split; [simpl; lia|].
    all: exists e; split; [exact He|]; simpl; auto 10.
  - rewrite Send_no_match by exact F. unfold insert_pair.
    erewrite new_effects_app by reflexivity. simpl.
    split; [reflexivity|]. split; [lia|]. by split.
Qed.


(** X6.  A call that does not return leaves the table with the entries it
    had, under the same keys and in the same order: it has neither stored
    nor erased, at most completed the entry it matched. *)
Theorem X6_failed_call_keeps_the_keys check src dst n seq sg dn c s :
  failure (Send check src dst n seq sg dn c s) <> None ->
  key_of <$> pgas_send_info_map (final (Send check src dst n seq sg dn c s)) =
  key_of <$> pgas_send_info_map s.
Proof.
  intros Hf.
  destruct (find_it (where_ dst) seq (pgas_send_info_map s)) as [it|] eqn:F.
  - destruct (find_it_Some _ _ _ _ F) as (e & He & _).
    pose proof (Send_match_map check src dst n seq sg dn c s it _ e F He)
      as Hm. simpl in Hm.
    destruct (Send check src dst n seq sg dn c s) as [[] s'|f s']; simpl in *;
      [congruence|].
    destruct Hm as [-> | ->]; [reflexivity|].
    rewrite list_fmap_insert. apply list_insert_id.
    rewrite list_lookup_fmap, He. simpl. unfold key_of. simpl.
    by rewrite merged_SeqNum.
  - rewrite Send_no_match in Hf by exact F. by destruct Hf.
Qed.

(** X6 at work: a source half of 128 bytes meets the 1024 bytes stored for
    transfer 7. *)
Lemma X6_witness :
  key_of <$> pgas_send_info_map
    (final (Send check_spec (src_ptr src7_128) (dst_ptr src7_128) 128 7
              0%N 62%N 70%N crowded)) =
  key_of <$> pgas_send_info_map crowded.
Proof.
  apply (X6_failed_call_keeps_the_keys check_spec (src_ptr src7_128)
           (dst_ptr src7_128) 128 7 0%N 62%N 70%N crowded).
  discriminate.
Defined.

(** ** A call and the entries of other keys *)

Lemma has_key_found key seq m it e :
  find_it key seq m = Some it -> m !! it = Some e -> has_key key seq e = true.
Proof.
  intros Hit He. destruct (find_it_Some _ _ _ _ Hit) as (e' & He' & Hs).
  rewrite He in He'. injection He' as ->. unfold has_key. simpl.
  by rewrite Hs, N.eqb_refl, Z.eqb_refl.
Qed.

Lemma find_it_first key seq m it :
  find_it key seq m = Some it -> own key seq (take it m) = [].
Proof.
  revert it. induction m as [|[k e] m IH]; intros it; simpl; [discriminate|].
  destruct ((k =? key)%N && (seq =? SeqNum e)) eqn:E.
  - by intros [= <-].
  - destruct (find_it key seq m) as [j|]; simpl; [|discriminate].
    intros [= <-]. simpl. unfold has_key at 1. simpl. rewrite E. by apply IH.
Qed.

Lemma find_it_none_own key seq m :
  find_it key seq m = None -> own key seq m = [].
Proof.
  induction m as [|[k e] m IH]; simpl; [reflexivity|].
  unfold has_key at 1. simpl.
  destruct ((k =? key)%N && (seq =? SeqNum e)); [discriminate|].
  destruct (find_it key seq m); [discriminate|]. intros _. by apply IH.
Qed.

Lemma own_app key seq m l :
  own key seq (m ++ l) = own key seq m ++ own key seq l.
Proof. apply List.filter_app. Qed.

Lemma others_app key seq m l :
  others key seq (m ++ l) = others key seq m ++ others key seq l.
Proof. apply List.filter_app. Qed.

Lemma others_cons_own key seq e m :
  has_key key seq e = true -> others key seq (e :: m) = others key seq m.
Proof. intros H. unfold others. simpl. by rewrite H. Qed.

Lemma own_cons_own key seq e m :
  has_key key seq e = true -> own key seq (e :: m) = e :: own key seq m.
Proof. intros H. unfold own. simpl. by rewrite H. Qed.

Lemma others_middle key seq (m : pgas_send_info_map_t) it e :
  m !! it = Some e -> has_key key seq e = true ->
  others key seq m = others key seq (take it m) ++ others key seq (drop (S it) m).
Proof.
  intros He Hk. rewrite <- (take_drop_middle m it e He) at 1.
  by rewrite others_app, others_cons_own.
Qed.

Lemma others_delete key seq (m : pgas_send_info_map_t) it e :
  m !! it = Some e -> has_key key seq e = true ->
  others key seq (delete it m) = others key seq m.
Proof.
  intros He Hk. rewrite (others_middle key seq m it e He Hk).
  by rewrite delete_take_drop, others_app.
Qed.

Lemma others_insert key seq (m : pgas_send_info_map_t) it e e' :
  m !! it = Some e -> has_key key seq e = true -> has_key key seq e' = true ->
  others key seq (<[it := e']> m) = others key seq m.
Proof.
  intros He Hk Hk'. pose proof (lookup_lt_Some _ _ _ He) as Hlen.
  rewrite (others_middle key seq m it e He Hk).
  rewrite insert_take_drop by exact Hlen.
  by rewrite others_app, others_cons_own.
Qed.

Lemma has_key_merged key seq k e src dst sg dn c :
  has_key key seq (k, merged e src dst sg dn c) = has_key key seq (k, e).
Proof. unfold has_key. simpl. by rewrite merged_SeqNum. Qed.

(** X7.  Whatever a call does, and however it ends, the entries that carry
    another rank or another sequence number are the same afterwards, in
    the same order. *)
Theorem X7_other_keys_untouched check src dst n seq sg dn c s :
  others (where_ dst) seq
    (pgas_send_info_map (final (Send check src dst n seq sg dn c s))) =
  others (where_ dst) seq (pgas_send_info_map s).
Proof.
  destruct (find_it (where_ dst) seq (pgas_send_info_map s)) as [it|] eqn:F.
  - destruct (find_it_Some _ _ _ _ F) as (e & He & Hs).
    pose proof (has_key_found _ _ _ _ _ F He) as Hk.
    pose proof (Send_match_map check src dst n seq sg dn c s it _ e F He)
      as Hm. simpl in Hm.
    destruct (Send check src dst n seq sg dn c s) as [[] s'|f s']; simpl.
    + rewrite Hm. by apply (others_delete _ _ _ _ _ He).
    + destruct Hm as [-> | ->]; [reflexivity|].
      apply (others_insert _ _ _ _ _ _ He Hk).
      by rewrite has_key_merged.
  - rewrite Send_no_match by exact F. simpl.
    rewrite others_app, others_cons_own, app_nil_r; [reflexivity|].
    unfold has_key. simpl. by rewrite N.eqb_refl, Z.eqb_refl.
Qed.

Lemma own_found key seq (m : pgas_send_info_map_t) it e :
  find_it key seq m = Some it -> m !! it = Some e ->
  own key seq m = e :: own key seq (drop (S it) m).
Proof.
  intros Hit He. rewrite <- (take_drop_middle m it e He) at 1.
  rewrite own_app, (find_it_first _ _ _ _ Hit). simpl.
  apply own_cons_own. by apply (has_key_found _ _ _ _ _ Hit He).
Qed.

Lemma own_delete_found key seq (m : pgas_send_info_map_t) it :
  find_it key seq m = Some it ->
  own key seq (delete it m) = own key seq (drop (S it) m).
Proof.
  intros Hit. rewrite delete_take_drop, own_app.
  by rewrite (find_it_first _ _ _ _ Hit).
Qed.

Lemma own_insert_found key seq (m : pgas_send_info_map_t) it e e' :
  find_it key seq m = Some it -> m !! it = Some e ->
  has_key key seq e' = true ->
  own key seq (<[it := e']> m) = e' :: own key seq (drop (S it) m).
Proof.
  intros Hit He Hk. pose proof (lookup_lt_Some _ _ _ He) as Hlen.
  rewrite insert_take_drop by exact Hlen.
  rewrite own_app, (find_it_first _ _ _ _ Hit). simpl.
  by apply own_cons_own.
Qed.

(** X8.  A call sees the table through its own key only.  Run on the
    table, or on the table cut down to the entries of the call's rank and
    sequence number, it ends the same way, with the same counters and the
    same new effects, and what it leaves of those entries is the same. *)
Theorem X8_only_the_own_key_matters check src dst n seq sg dn c s :
  let m := pgas_send_info_map s in
  let o := Send check src dst n seq sg dn c s in
  let o' := Send check src dst n seq sg dn c
              (set_map (own (where_ dst) seq m) s) in
  failure o = failure o' /\
  ints (final o) = ints (final o') /\
  new_effects s o = new_effects s o' /\
  own (where_ dst) seq (pgas_send_info_map (final o)) =
    pgas_send_info_map (final o').
Proof.
  intros m o o'. subst o o' m.
  destruct (find_it (where_ dst) seq (pgas_send_info_map s)) as [it|] eqn:F.
  - destruct (find_it_Some _ _ _ _ F) as (e & He & Hs).
    pose proof (has_key_found _ _ _ _ _ F He) as Hk.
    pose proof (own_found _ _ _ _ _ F He) as Hown.
    rewrite (Send_match_outcome check src dst n seq sg dn c s it _ e F He).
    rewrite (Send_match_outcome check src dst n seq sg dn c
               (set_map (own (where_ dst) seq (pgas_send_info_map s)) s)
               O (where_ dst) e); cycle 1.
    { simpl. rewrite Hown. simpl. unfold has_key in Hk. simpl in Hk.
      by rewrite Hk. }
    { simpl. by rewrite Hown. }
    destruct (negb (n =? nbytes e)%N);
      [|destruct (negb (is_null (src_ptr e)) && negb (is_null (dst_ptr e)));
        [|destruct (negb (check _));
          [|destruct (can_incr _ _)]]].
    all: unfold new_effects; simpl; split_and!; try reflexivity.
    + rewrite Hown.
      rewrite (own_insert_found _ _ _ _ _ _ F He)
        by (by rewrite has_key_merged).
      reflexivity.
    + rewrite Hown. by rewrite (own_delete_found _ _ _ _ F).
    + rewrite Hown.
      rewrite (own_insert_found _ _ _ _ _ _ F He)
        by (by rewrite has_key_merged).
      reflexivity.
  - pose proof (find_it_none_own _ _ _ F) as Hown.
    rewrite Send_no_match by exact F.
    rewrite Send_no_match by (simpl; by rewrite Hown).
    unfold new_effects. simpl. rewrite Hown, own_app, Hown. simpl.
    split_and!; try reflexivity.
    unfold has_key. simpl. by rewrite N.eqb_refl, Z.eqb_refl.
Qed.

(** ** Sequences of calls that return *)

Lemma announce_returns check a s s' :
  announce check a s = Ok tt s' ->
  exists new,
    trace s' = trace s ++ new /\
    ((exists d, new = [EvInsert (where_ (dst_ptr a)) d] /\
      length (pgas_send_info_map s') = S (length (pgas_send_info_map s))) \/
     (exists d, new = [copy_of d; EvIncr (send_counter d);
                       EvErase (where_ (dst_ptr a)) d] /\
      S (length (pgas_send_info_map s')) = length (pgas_send_info_map s))).
Proof.
  unfold announce.
  destruct (find_it (where_ (dst_ptr a)) (SeqNum a) (pgas_send_info_map s))
    as [it|] eqn:F.
  - destruct (find_it_Some _ _ _ _ F) as (e & He & _).
    pose proof (lookup_lt_Some _ _ _ He) as Hlen.
    rewrite (Send_match_outcome check _ _ _ _ _ _ _ s it _ e F He).
    destruct (negb (nbytes a =? nbytes e)%N); [discriminate|].
    destruct (negb (is_null (src_ptr e)) && negb (is_null (dst_ptr e)));
      [discriminate|].
    destruct (negb (check _)); [discriminate|].
    destruct (can_incr _ _); [|discriminate].
    intros [= <-]. eexists. split; [reflexivity|]. right.
    eexists. split; [reflexivity|]. simpl. rewrite length_delete by eauto. lia.
  - rewrite Send_no_match by exact F. unfold insert_pair.
    intros [= <-]. eexists. split; [reflexivity|]. left.
    eexists. split; [reflexivity|]. simpl. rewrite length_app. simpl. lia.
Qed.

(** X9.  The books of a sequence of calls that all return.  Every call
    either stored a half or fired a transfer, so the calls are as many as
    the insertions and the copies together; every copy came with one
    increment and one erasure; and the table has grown by the calls less
    two for every copy. *)
Theorem X9_books_balance check calls s s' :
  run check calls s = Ok tt s' ->
  exists new,
    trace s' = trace s ++ new /\
    (length (List.filter is_insert new) + length (copies new) =
       length calls)%nat /\
    length (List.filter is_incr new) = length (copies new) /\
    length (List.filter is_erase new) = length (copies new) /\
    (length (pgas_send_info_map s') + 2 * length (copies new) =
       length (pgas_send_info_map s) + length calls)%nat.
Proof.
  revert s. induction calls as [|a calls IH]; intros s; simpl.
  - intros [= <-]. exists []. by rewrite app_nil_r.
  - unfold bind.
    destruct (announce check a s) as [[] s1|f s1] eqn:Ha; [|discriminate].
    intros Hrest.
    destruct (announce_returns _ _ _ _ Ha) as (new1 & Ht1 & Hcase).
    destruct (IH s1 Hrest) as (new2 & Ht2 & Hc & Hi & He & Hlen).
    exists (new1 ++ new2). rewrite Ht2, Ht1, <- app_assoc.
    split; [reflexivity|].
    unfold copies in *. rewrite !List.filter_app, !length_app.
    destruct Hcase as [(d & -> & Hl)|(d & -> & Hl)]; simpl; lia.
Qed.

(** X9 at work on the order dest-7, dest-8, src-8, src-7. *)
Lemma X9_witness :
  exists new,
    trace (final (run check_spec [dst7; dst8; src8; src7] waiting9)) =
      trace waiting9 ++ new /\
    (length (List.filter is_insert new) + length (copies new) =
       length [dst7; dst8; src8; src7])%nat /\
    length (List.filter is_incr new) = length (copies new) /\
    length (List.filter is_erase new) = length (copies new) /\
    (length (pgas_send_info_map
               (final (run check_spec [dst7; dst8; src8; src7] waiting9))) +
       2 * length (copies new) =
       length (pgas_send_info_map waiting9) +
       length [dst7; dst8; src8; src7])%nat.
Proof.
  apply (X9_books_balance check_spec [dst7; dst8; src8; src7] waiting9).
  reflexivity.
Defined.

Lemma run_app check l1 l2 s :
  run check (l1 ++ l2) s =
  match run check l1 s with
  | Ok _ s1 => run check l2 s1
  | Abort f s1 => Abort f s1
  end.
Proof.
  revert s. induction l1 as [|a l1 IH]; intros s; simpl; [reflexivity|].
  unfold bind. destruct (announce check a s); [apply IH | reflexivity].
Qed.

(** X10.  A key is free again once its transfer has fired.  The two halves
    of a transfer announced [n] times over, in either order, fire [n]
    times: [n] copies, the counter up by [n], the table as it was, as long
    as the counter stays within [int]. *)
Theorem X10_a_key_can_be_used_again check sa da s v n first second :
  complementary sa da ->
  absent (pgas_send_info_map s) sa ->
  check (transfer sa da) = true ->
  send_counter sa <> 0%N ->
  ints s !! send_counter sa = Some v ->
  v + Z.of_nat n <= INT_MAX ->
  (first = da /\ second = sa) \/ (first = sa /\ second = da) ->
  exists s',
    run check (rounds n [first; second]) s = Ok tt s' /\
    pgas_send_info_map s' = pgas_send_info_map s /\
    ints s' !! send_counter sa = Some (v + Z.of_nat n) /\
    (forall p, p <> send_counter sa -> ints s' !! p = ints s !! p) /\
    copies (trace s') =
      copies (trace s) ++ replicate n (copy_of (transfer sa da)).
Proof.
  intros Hc Habs Hck Hp Hv Hmax Hord.
  revert s v Habs Hv Hmax. induction n as [|n IH]; intros s v Habs Hv Hmax.
  - exists s. simpl. rewrite Z.add_0_r, app_nil_r. by split_and!.
  - destruct Hc as (Hsa & Hda & Hrank & Hseq & Hn).
    change (rounds (S n) [first; second])
      with ([first; second] ++ rounds n [first; second]).
    rewrite (run_app check [first; second]).
    rewrite (pair_fires check sa da s v first second) by (auto; lia).
    set (s1 := {| pgas_send_info_map := pgas_send_info_map s |}).
    destruct (IH s1 (v + 1)) as (s' & Hrun & Hm & Hi & Hfr & Hcp).
    + exact Habs.
    + apply lookup_insert_eq.
    + lia.
    + exists s'. split; [exact Hrun|]. split; [by rewrite Hm|]. split.
      { rewrite Hi. f_equal. lia. }
      split.
      { intros p Hne. rewrite (Hfr p Hne). simpl.
        by rewrite lookup_insert_ne. }
      rewrite Hcp. simpl. rewrite copies_app. simpl.
      rewrite <- app_assoc.
      destruct Hord as [[-> _]|[-> _]]; reflexivity.
Qed.

(** X10 at work: three rounds of transfer 7, source half first. *)
Lemma X10_witness :
  exists s',
    run check_spec (rounds 3 [src7; dst7]) waiting9 = Ok tt s' /\
    pgas_send_info_map s' = pgas_send_info_map waiting9 /\
    ints s' !! send_counter src7 = Some (5 + Z.of_nat 3) /\
    (forall p, p <> send_counter src7 -> ints s' !! p = ints waiting9 !! p) /\
    copies (trace s') =
      copies (trace waiting9) ++ replicate 3 (copy_of (transfer src7 dst7)).
Proof.
  apply (X10_a_key_can_be_used_again check_spec src7 dst7 waiting9 5 3
           src7 dst7).
  - repeat split.
  - reflexivity.
  - reflexivity.
  - discriminate.
  - reflexivity.
  - discriminate.
  - right. split; reflexivity.
Defined.

(** ** Two transfers to two ranks *)

Section TwoRanks.

Variable check : SendInfo -> bool.
Variables s1 d1 s2 d2 : SendInfo.
Hypothesis Hs1 : is_source_half s1 = true.
Hypothesis Hd1 : is_destination_half d1 = true.
Hypothesis Hs2 : is_source_half s2 = true.
Hypothesis Hd2 : is_destination_half d2 = true.
Hypothesis Hr1 : where_ (dst_ptr s1) = where_ (dst_ptr d1).
Hypothesis Hr2 : where_ (dst_ptr s2) = where_ (dst_ptr d2).
Hypothesis Hranks : where_ (dst_ptr s1) <> where_ (dst_ptr s2).
Hypothesis Ht1 : SeqNum s1 = SeqNum d1.
Hypothesis Ht2 : SeqNum s2 = SeqNum d2.
Hypothesis Hn1 : nbytes s1 = nbytes d1.
Hypothesis Hn2 : nbytes s2 = nbytes d2.
Hypothesis Hck1 : check (transfer s1 d1) = true.
Hypothesis Hck2 : check (transfer s2 d2) = true.

Local Ltac ranks R12 R21 :=
  cbn [pgas_send_info_map find_it];
  rewrite <- ?Hr1, <- ?Hr2, <- ?Ht1, <- ?Ht2,
    ?N.eqb_refl, ?Z.eqb_refl, ?R12, ?R21;
  simpl; reflexivity.

Local Ltac roles :=
  first [ unfold is_destination_half in Hd1, Hd2;
          first [rewrite Hd1 | rewrite Hd2]; reflexivity
        | unfold is_source_half in Hs1, Hs2;
          first [rewrite Hs1 | rewrite Hs2]; apply orb_true_r ].

Local Ltac one_call R12 R21 :=
  eapply run_step;
  [ first
      [ apply announce_stores; unfold absent; ranks R12 R21
      | eapply announce_fires;
        [ ranks R12 R21
        | reflexivity
        | first [assumption | symmetry; assumption]
        | roles
        | first [ by apply merged_destination_first
                | by apply merged_source_first ]
        | assumption
        | cbn [send_counter transfer]; assumption ] ]
  | cbn [pgas_send_info_map ints trace app delete list_delete
         send_counter transfer] ].

Lemma two_ranks_base i tr calls :
  can_incr (send_counter s1) i = true ->
  can_incr (send_counter s2) (bump (send_counter s1) i) = true ->
  calls ≡ₚ [d1; s1; d2; s2] ->
  exists tr',
    run check calls {| pgas_send_info_map := []; ints := i; trace := tr |} =
    Ok tt {| pgas_send_info_map := [];
             ints := bump (send_counter s2) (bump (send_counter s1) i);
             trace := tr' |} /\
    (copies tr' =
       copies tr ++ [copy_of (transfer s1 d1); copy_of (transfer s2 d2)] \/
     copies tr' =
       copies tr ++ [copy_of (transfer s2 d2); copy_of (transfer s1 d1)]).
Proof.
  intros Hi1 Hi21 Hperm.
  destruct (can_incr_swap _ _ _ Hi1 Hi21) as [Hi2 Hi12].
  assert (R12 : (where_ (dst_ptr s1) =? where_ (dst_ptr s2))%N = false)
    by by apply N.eqb_neq.
  assert (R21 : (where_ (dst_ptr s2) =? where_ (dst_ptr s1))%N = false)
    by (apply N.eqb_neq; congruence).
  symmetry in Hperm. apply permutations_Permutation in Hperm.
  cbv [permutations interleave fmap list_fmap mbind list_bind app] in Hperm.
  repeat (apply elem_of_cons in Hperm as [->|Hperm]);
    [..|by apply elem_of_nil in Hperm].
  all: eexists; split;
    [ do 4 one_call R12 R21; cbn [run ret];
      rewrite ?(bump_comm (send_counter s1) (send_counter s2)); reflexivity
    | rewrite !copies_app; simpl; rewrite ?app_nil_r, <- ?app_assoc; simpl;
      auto ].
Qed.

End TwoRanks.

(** X11.  Two transfers to two different ranks, whatever their sequence
    numbers, the same one included.  Their four halves announced in any of
    the 24 orders, over a table that has no entry for either key: the four
    calls return, each transfer is copied once with its own addresses and
    size, the counters have been incremented twice, and the table is what
    it was. *)
Theorem X11_ranks_do_not_mix check s1 d1 s2 d2 s calls :
  complementary s1 d1 -> complementary s2 d2 ->
  where_ (dst_ptr s1) <> where_ (dst_ptr s2) ->
  absent (pgas_send_info_map s) s1 -> absent (pgas_send_info_map s) s2 ->
  check (transfer s1 d1) = true -> check (transfer s2 d2) = true ->
  can_incr (send_counter s1) (ints s) = true ->
  can_incr (send_counter s2) (bump (send_counter s1) (ints s)) = true ->
  calls ≡ₚ [d1; s1; d2; s2] ->
  exists s',
    run check calls s = Ok tt s' /\
    (copies (trace s') = copies (trace s) ++
       [EvCopy (src_ptr s1) (dst_ptr d1) (nbytes s1) (signal_event d1)
               (done_event s1);
        EvCopy (src_ptr s2) (dst_ptr d2) (nbytes s2) (signal_event d2)
               (done_event s2)] \/
     copies (trace s') = copies (trace s) ++
       [EvCopy (src_ptr s2) (dst_ptr d2) (nbytes s2) (signal_event d2)
               (done_event s2);
        EvCopy (src_ptr s1) (dst_ptr d1) (nbytes s1) (signal_event d1)
               (done_event s1)]) /\
    ints s' = bump (send_counter s2) (bump (send_counter s1) (ints s)) /\
    pgas_send_info_map s' = pgas_send_info_map s.
Proof.
  intros (Hs1 & Hd1 & Hr1 & Ht1 & Hn1) (Hs2 & Hd2 & Hr2 & Ht2 & Hn2)
    Hranks Ha1 Ha2 Hck1 Hck2 Hi1 Hi2 Hperm.
  assert (Hall : Forall (absent (pgas_send_info_map s)) [d1; s1; d2; s2]).
  { repeat constructor; try assumption.
    - by apply (absent_same_key _ s1 d1).
    - by apply (absent_same_key _ s2 d2). }
  assert (Hcalls : Forall (absent (pgas_send_info_map s)) calls)
    by (by rewrite Hperm).
  destruct (two_ranks_base check s1 d1 s2 d2 Hs1 Hd1 Hs2 Hd2 Hr1 Hr2 Hranks
              Ht1 Ht2 Hn1 Hn2 Hck1 Hck2 (ints s) (trace s) calls
              Hi1 Hi2 Hperm) as (tr' & Hrun & Hcopies).
  rewrite (run_over_table _ _ _ Hcalls). unfold set_map. rewrite Hrun.
  eexists. split; [reflexivity|]. unfold behind, set_map. simpl.
  rewrite app_nil_r. split_and!; auto.
Qed.

(** X11 at work: sequence number 7 to rank 3 and to rank 4, interleaved. *)
Lemma X11_witness :
  exists s',
    run check_spec [dst7; dst7_rank4; src7_rank4; src7] waiting9 = Ok tt s' /\
    (copies (trace s') = copies (trace waiting9) ++
       [EvCopy (src_ptr src7) (dst_ptr dst7) (nbytes src7)
               (signal_event dst7) (done_event src7);
        EvCopy (src_ptr src7_rank4) (dst_ptr dst7_rank4) (nbytes src7_rank4)
               (signal_event dst7_rank4) (done_event src7_rank4)] \/
     copies (trace s') = copies (trace waiting9) ++
       [EvCopy (src_ptr src7_rank4) (dst_ptr dst7_rank4) (nbytes src7_rank4)
               (signal_event dst7_rank4) (done_event src7_rank4);
        EvCopy (src_ptr src7) (dst_ptr dst7) (nbytes src7)
               (signal_event dst7) (done_event src7)]) /\
    ints s' = bump (send_counter src7_rank4)
                (bump (send_counter src7) (ints waiting9)) /\
    pgas_send_info_map s' = pgas_send_info_map waiting9.
Proof.
  apply (X11_ranks_do_not_mix check_spec src7 dst7 src7_rank4 dst7_rank4
           waiting9 [dst7; dst7_rank4; src7_rank4; src7]).
  - repeat split.
  - repeat split.
  - discriminate.
  - reflexivity.
  - reflexivity.
  - reflexivity.
  - reflexivity.
  - reflexivity.
  - reflexivity.
  - apply (Permutation_trans (l' := [dst7; src7; dst7_rank4; src7_rank4])).
    + apply perm_skip.
      apply Permutation_trans with (l' := [dst7_rank4; src7; src7_rank4]).
      * apply perm_skip. apply perm_swap.
      * apply perm_swap.
    + reflexivity.
Defined.

(** X12.  The copy comes before the counter.  When the two halves of a
    transfer have met and [check] has accepted the descriptor, but the
    increment through the counter of the source half is undefined (a null
    counter, no [int] there, or [INT_MAX]), the copy has been issued all
    the same: the trace ends with it, no counter has changed, and the
    completed descriptor is still in the table. *)
Theorem X12_copy_precedes_the_counter check sa da s first second :
  complementary sa da ->
  absent (pgas_send_info_map s) sa ->
  check (transfer sa da) = true ->
  can_incr (send_counter sa) (ints s) = false ->
  (first = da /\ second = sa) \/ (first = sa /\ second = da) ->
  run check [first; second] s =
  Abort Undefined
    {| pgas_send_info_map :=
         pgas_send_info_map s ++ [(where_ (dst_ptr sa), transfer sa da)];
       ints := ints s;
       trace := trace s ++ [EvInsert (where_ (dst_ptr sa)) first;
                            copy_of (transfer sa da)] |}.
Proof.
  intros (Hsa & Hda & Hrank & Hseq & Hn) Habs Hck Hinc Hord.
  rewrite (run_pair check sa da) by assumption. rewrite Hck.
  erewrite fire_spec by reflexivity. simpl.
  unfold can_incr in Hinc.
  destruct (send_counter sa =? 0)%N; simpl in *.
  - unfold behind, set_map. simpl. by rewrite <- app_assoc.
  - destruct (ints s !! send_counter sa) as [v|].
    + rewrite Hinc. unfold behind, set_map. simpl. by rewrite <- app_assoc.
    + unfold behind, set_map. simpl. by rewrite <- app_assoc.
Qed.

(** X12 at work: the source half of transfer 7 brings a null counter. *)
Lemma X12_witness :
  run check_spec [dst7; src7_no_counter] waiting9 =
  Abort Undefined
    {| pgas_send_info_map :=
         pgas_send_info_map waiting9 ++
         [(where_ (dst_ptr src7_no_counter), transfer src7_no_counter dst7)];
       ints := ints waiting9;
       trace := trace waiting9 ++
                [EvInsert (where_ (dst_ptr src7_no_counter)) dst7;
                 copy_of (transfer src7_no_counter dst7)] |}.
Proof.
  apply (X12_copy_precedes_the_counter check_spec src7_no_counter dst7
           waiting9 dst7 src7_no_counter).
  - repeat split.
  - reflexivity.
  - reflexivity.
  - reflexivity.
  - left. split; reflexivity.
Defined.
